(** * Thread: four multiplication threads and one generator thread

    A shallow embedding of [src/thread.cpp].  The sequential code
    ([multiplyMatrices], the [std::vector] constructors) is rendered as
    executable functions; the five threads are rendered as a labelled
    transition system.  A step is one statement of [multiplicationThread],
    [matrixGeneratorThread] or [main]; a region in which the source holds
    [cv_mtx] is one step, since the mutex serialises those regions and
    nothing outside them touches [finishedCount].  Every thread that sleeps
    in [cv.wait] belongs to the single wait set of [cv].  A vector
    constructor returns or throws as the allocator decides; the refusal of
    an allocation is a step of its own.  The clock and the console output
    (lines 52, 57-65, 95-97) do not act on the state and are left out. *)

From Stdlib Require Import ZArith Lia Bool.
From stdpp Require Import base option list.

Local Open Scope Z_scope.

(** ** The type [int]

    [int] is the 32-bit two's-complement integer of the usual targets.
    Signed overflow is undefined in C++; the embedding renders it as the
    wrap-around the hardware performs and states it explicitly. *)

Definition INT_MAX : Z := 2147483647.
Definition INT_MIN : Z := -2147483648.

Definition in_int (x : Z) : Prop := INT_MIN <= x <= INT_MAX.

Definition wrap (x : Z) : Z := (x + 2147483648) mod 4294967296 - 2147483648.

Definition int_add (a b : Z) : Z := wrap (a + b).
Definition int_mul (a b : Z) : Z := wrap (a * b).

(** ** [std::vector]

    [vector<T>(n, v)] with an [int] count: the count is converted to
    [size_type]; a negative [int] becomes a value above [max_size()] and the
    constructor throws [std::length_error].  Otherwise the constructor asks
    the allocator for storage and throws [std::bad_alloc] when it is refused;
    whether storage is granted is the environment's answer [mem], not a
    function of the program.  Both exceptions are rendered as [None]. *)

Abbreviation matrix := (list (list Z)).

Definition make_vector {A : Type} (mem : bool) (n : Z) (v : A) : option (list A) :=
  if n <? 0 then None                              (* std::length_error *)
  else if mem then Some (replicate (Z.to_nat n) v)
  else None.                                       (* std::bad_alloc *)

(** [vector<vector<int>>(n, vector<int>(n, v))] *)
Definition make_matrix (mem : bool) (n v : Z) : option matrix :=
  row ← make_vector mem n v; make_vector mem n row.

(** The value [make_matrix] builds when it succeeds. *)
Definition fill (n v : Z) : matrix :=
  replicate (Z.to_nat n) (replicate (Z.to_nat n) v).

(** [M[i][j]] as an rvalue; [operator[]] is unchecked, an index out of range
    is undefined behaviour and is rendered as [None]. *)
Definition at2 (M : matrix) (i j : nat) : option Z :=
  row ← M !! i; row !! j.

(** [C[i][j] = v] *)
Definition store (C : matrix) (i j : nat) (v : Z) : option matrix :=
  row ← C !! i;
  if bool_decide (j < length row)%nat
  then Some (<[i := <[j := v]> row]> C)
  else None.

(** [for (int i = lo; i < lo + cnt; ++i) body] over a state that the body
    may fail to produce. *)
Fixpoint for_from {St : Type} (lo cnt : nat)
    (body : nat -> St -> option St) (s : St) : option St :=
  match cnt with
  | O => Some s
  | S c => s' ← body lo s; for_from (S lo) c body s'
  end.

(** [for (int i = 0; i < N; ++i) body]: no iteration when [N <= 0]. *)
Definition for_loop {St : Type} (N : Z)
    (body : nat -> St -> option St) (s : St) : option St :=
  for_from 0 (Z.to_nat N) body s.

(** *** [multiplyMatrices], lines 29-40

    The three matrix parameters are references.  [multiplyMatrices_at] is
    the function on the objects they refer to: [h] holds the matrix objects
    by address, [a], [b] and [c] are the addresses bound to [A], [B] and
    [C], which may coincide; every [A[i][k]] and [B[k][j]] is read from the
    object as it is at that moment and every [C[i][j] = sum] is written
    through [c]. *)

Definition load (h : list matrix) (a i j : nat) : option Z :=
  M ← h !! a; at2 M i j.

Definition store_at (h : list matrix) (c i j : nat) (v : Z) : option (list matrix) :=
  M ← h !! c; M' ← store M i j v; Some (<[c := M']> h).

Definition multiplyMatrices_at (a b c : nat) (N : Z) (h : list matrix)
    : option (list matrix) :=
  for_loop N (fun i h =>
    for_loop N (fun j h =>
      sum ← for_loop N (fun k sum =>
               x ← load h a i k;
               y ← load h b k j;
               Some (int_add sum (int_mul x y))) 0;
      store_at h c i j sum) h) h.

(** The same loops when [C] is an object of its own, distinct from [A] and
    [B], as in the program's only call (line 55, where [C] is the local
    matrix built at line 49): [A] and [B] are then never written and the
    effect of the call is the new value of [C].  [multiply_at_distinct]
    below proves that [multiplyMatrices_at] reduces to this function on
    distinct addresses. *)
Definition multiplyMatrices (A B C : matrix) (N : Z) : option matrix :=
  for_loop N (fun i C =>
    for_loop N (fun j C =>
      sum ← for_loop N (fun k sum =>
               a ← at2 A i k;
               b ← at2 B k j;
               Some (int_add sum (int_mul a b))) 0;
      store C i j sum) C) C.

(** The mathematical entry and dot product the result is compared with. *)
Definition entry (M : matrix) (i j : nat) : Z := default 0 (at2 M i j).

Fixpoint dot (A B : matrix) (i j n : nat) : Z :=
  match n with
  | O => 0
  | S k => dot A B i j k + entry A i k * entry B k j
  end.

(** The first [N] rows exist and hold at least [N] columns each. *)
Definition dims_geb (M : matrix) (N : Z) : bool :=
  forallb (fun i => match M !! i with
                    | Some row => Nat.leb (Z.to_nat N) (length row)
                    | None => false
                    end) (seq 0 (Z.to_nat N)).

Definition dims_ge (M : matrix) (N : Z) : Prop := dims_geb M N = true.

(** Square of dimension [n]. *)
Definition square (n : Z) (M : matrix) : Prop :=
  0 <= n /\ length M = Z.to_nat n /\ Forall (fun row => length row = Z.to_nat n) M.

(** ** Configuration

    The source fixes its configuration as literals: the initial value of
    [currentN] (line 19), the array bound [numMultiplicationThreads]
    (line 127) and the count [4] both wait predicates compare
    [finishedCount] with (lines 72 and 87). *)

Record config := Config {
  initialN : Z;
  numMultiplicationThreads : nat;
  participants : Z
}.

Definition code_config : config :=
  {| initialN := 10; numMultiplicationThreads := 4; participants := 4 |}.

(** ** Threads *)

(** Program points of [multiplicationThread]. *)
Inductive wphase :=
  | WRead       (* line 46: about to read currentN *)
  | WAlloc      (* line 49: about to build C *)
  | WMultiply   (* line 55: about to multiply globalA and globalB *)
  | WSignal     (* line 69: about to enter the critical section *)
  | WBlocked    (* line 76: inside cv.wait, in the wait set *)
  | WWoken      (* line 76: unblocked, about to re-take the lock and re-test *)
  | WFinished.  (* the thread function has returned *)

Record worker := Worker_ {
  wpc : wphase;
  N_local : Z;
  C_local : matrix;
  rounds : nat      (* ghost: iterations of the while loop completed *)
}.

(** Program points of [matrixGeneratorThread]. *)
Inductive gphase :=
  | GAwait      (* line 86: about to lock and test finishedCount == 4 *)
  | GBlocked    (* line 87: inside cv.wait, in the wait set *)
  | GWoken      (* line 87: unblocked, about to re-take the lock and re-test *)
  | GDouble     (* line 91: about to double currentN *)
  | GNewSize    (* line 92: about to read currentN into newSize *)
  | GAlloc      (* lines 104-105: about to build newA and newB *)
  | GInstall    (* line 109: about to enter the critical section *)
  | GFinished.  (* the thread function has returned *)

Record generator := Generator_ {
  gpc : gphase;
  newSize : Z;
  newA : matrix;
  newB : matrix
}.

(** Program points of [main] once the threads are started. *)
Inductive mphase :=
  | MJoin (k : nat)     (* line 138: multThreads[k].join() *)
  | MJoinGenerator      (* line 140 *)
  | MReturned.          (* line 142 *)

(** Identities of the storage of the shared matrices.  Every vector
    constructor of the generator (and of [main]) obtains storage that no
    other live vector owns; [globalA = move(newA)] makes [globalA] the
    owner of the storage of [newA].  The identities are ghost: they number
    the allocations in order. *)
Record buffers := Buffers {
  bufA : nat;           (* storage owned by globalA *)
  bufB : nat;           (* storage owned by globalB *)
  new_bufA : nat;       (* storage owned by newA, once built *)
  new_bufB : nat;       (* storage owned by newB, once built *)
  next_buf : nat        (* the next storage the allocator hands out *)
}.

Record state := State {
  currentN : Z;
  globalA : matrix;
  globalB : matrix;
  finishedCount : Z;
  workers : list worker;
  gen : generator;
  mainpc : mphase;
  generation : nat;     (* ghost: installs performed by the generator *)
  aborted : bool;       (* std::terminate was called *)
  bufs : buffers
}.

Inductive tid := Generator | Worker (i : nat).

(** What [main] does before it blocks in [join]. *)
Inductive startup := Aborted | Spawned (s : state).

Definition new_worker : worker :=
  {| wpc := WRead; N_local := 0; C_local := []; rounds := 0 |}.

Definition new_generator : generator :=
  {| gpc := GAwait; newSize := 0; newA := []; newB := [] |}.

Definition startup_state (cfg : config) (A B : matrix) : state :=
  {| currentN := initialN cfg; globalA := A; globalB := B;
     finishedCount := 0;
     workers := replicate (numMultiplicationThreads cfg) new_worker;
     gen := new_generator;
     mainpc := MJoin 0; generation := 0; aborted := false;
     bufs := {| bufA := 0; bufB := 1; new_bufA := 0; new_bufB := 0;
                next_buf := 2 |} |}.

(** thread.cpp, lines 121-134.  An exception of a vector constructor leaves
    [main] uncaught and ends the process before a thread exists. *)
Definition main (mem : bool) (cfg : config) : startup :=
  match make_matrix mem (initialN cfg) 1, make_matrix mem (initialN cfg) 2 with
  | Some A, Some B => Spawned (startup_state cfg A B)
  | _, _ => Aborted
  end.

Definition initial : state :=
  startup_state code_config (fill 10 1) (fill 10 2).

(** *** Field updates *)

Definition set_wpc (p : wphase) (w : worker) : worker :=
  {| wpc := p; N_local := N_local w; C_local := C_local w; rounds := rounds w |}.

Definition set_N_local (n : Z) (w : worker) : worker :=
  {| wpc := wpc w; N_local := n; C_local := C_local w; rounds := rounds w |}.

Definition set_C_local (C : matrix) (w : worker) : worker :=
  {| wpc := wpc w; N_local := N_local w; C_local := C; rounds := rounds w |}.

Definition next_round (w : worker) : worker :=
  {| wpc := WRead; N_local := N_local w; C_local := C_local w;
     rounds := S (rounds w) |}.

Definition set_gpc (p : gphase) (g : generator) : generator :=
  {| gpc := p; newSize := newSize g; newA := newA g; newB := newB g |}.

Definition set_workers (ws : list worker) (s : state) : state :=
  {| currentN := currentN s; globalA := globalA s; globalB := globalB s;
     finishedCount := finishedCount s; workers := ws; gen := gen s;
     mainpc := mainpc s; generation := generation s; aborted := aborted s;
     bufs := bufs s |}.

Definition set_worker (i : nat) (w : worker) (s : state) : state :=
  set_workers (<[i := w]> (workers s)) s.

Definition set_gen (g : generator) (s : state) : state :=
  {| currentN := currentN s; globalA := globalA s; globalB := globalB s;
     finishedCount := finishedCount s; workers := workers s; gen := g;
     mainpc := mainpc s; generation := generation s; aborted := aborted s;
     bufs := bufs s |}.

Definition set_currentN (n : Z) (s : state) : state :=
  {| currentN := n; globalA := globalA s; globalB := globalB s;
     finishedCount := finishedCount s; workers := workers s; gen := gen s;
     mainpc := mainpc s; generation := generation s; aborted := aborted s;
     bufs := bufs s |}.

Definition set_finishedCount (c : Z) (s : state) : state :=
  {| currentN := currentN s; globalA := globalA s; globalB := globalB s;
     finishedCount := c; workers := workers s; gen := gen s;
     mainpc := mainpc s; generation := generation s; aborted := aborted s;
     bufs := bufs s |}.

Definition set_mainpc (p : mphase) (s : state) : state :=
  {| currentN := currentN s; globalA := globalA s; globalB := globalB s;
     finishedCount := finishedCount s; workers := workers s; gen := gen s;
     mainpc := p; generation := generation s; aborted := aborted s;
     bufs := bufs s |}.

(** An uncaught exception in any thread calls [std::terminate]. *)
Definition abort (s : state) : state :=
  {| currentN := currentN s; globalA := globalA s; globalB := globalB s;
     finishedCount := finishedCount s; workers := workers s; gen := gen s;
     mainpc := mainpc s; generation := generation s; aborted := true;
     bufs := bufs s |}.

(** *** The condition variable [cv]

    Every thread that sleeps in [cv.wait] is in the one wait set of [cv]:
    the three other workers and the generator wait on the same object. *)

Definition wblocked (w : worker) : bool :=
  match wpc w with WBlocked => true | _ => false end.

Definition gblocked (g : generator) : bool :=
  match gpc g with GBlocked => true | _ => false end.

Definition any_blocked (s : state) : bool :=
  gblocked (gen s) || existsb wblocked (workers s).

Definition wake_worker (w : worker) : worker :=
  if wblocked w then set_wpc WWoken w else w.

Definition wake_generator (g : generator) : generator :=
  if gblocked g then set_gpc GWoken g else g.

(** Unblock thread [t], which must be in the wait set. *)
Definition unblock (t : tid) (s : state) : option state :=
  match t with
  | Generator =>
      if gblocked (gen s) then Some (set_gen (set_gpc GWoken (gen s)) s) else None
  | Worker j =>
      w ← workers s !! j;
      if wblocked w then Some (set_worker j (set_wpc WWoken w) s) else None
  end.

(** [cv.notify_one()]: unblocks one of the threads in the wait set, the
    implementation's choice [pick]; nothing happens when the set is empty. *)
Definition notify_one (pick : option tid) (s : state) : option state :=
  match pick with
  | Some t => unblock t s
  | None => if any_blocked s then None else Some s
  end.

(** [cv.notify_all()] *)
Definition notify_all (s : state) : state :=
  set_gen (wake_generator (gen s)) (set_workers (map wake_worker (workers s)) s).

(** *** Steps of a multiplication thread (lines 44-78)

    [multiplicationThread cfg threadId pick mem s] is the next step of the
    thread started with that [threadId]; [pick] is used by its [notify_one]
    and [mem] by its vector constructor. *)

Definition multiplicationThread (cfg : config) (threadId : nat)
    (pick : option tid) (mem : bool) (s : state) : option state :=
  w ← workers s !! threadId;
  match wpc w with
  | WRead =>
      Some (set_worker threadId (set_wpc WAlloc (set_N_local (currentN s) w)) s)
  | WAlloc =>
      match make_matrix mem (N_local w) 0 with
      | Some C => Some (set_worker threadId (set_wpc WMultiply (set_C_local C w)) s)
      | None => Some (abort s)
      end
  | WMultiply =>
      (* C is the thread's own object, the call is the call on values
         (multiply_call_distinct); an index out of range is undefined
         behaviour and the embedding ends the process there *)
      match multiplyMatrices (globalA s) (globalB s) (C_local w) (N_local w) with
      | Some C => Some (set_worker threadId (set_wpc WSignal (set_C_local C w)) s)
      | None => Some (abort s)
      end
  | WSignal =>
      (* lines 69-76, with cv_mtx held up to the wait *)
      let c := int_add (finishedCount s) 1 in
      let s1 := set_finishedCount c s in
      s2 ← (if c =? participants cfg then notify_one pick s1 else Some s1);
      Some (set_worker threadId
              (if c =? 0 then next_round w else set_wpc WBlocked w) s2)
  | WBlocked => None
  | WWoken =>
      (* cv_mtx re-taken inside wait, the predicate evaluated again *)
      Some (set_worker threadId
              (if finishedCount s =? 0 then next_round w else set_wpc WBlocked w) s)
  | WFinished => None
  end.

(** *** Steps of the generator thread (lines 83-118) *)

Definition await_all (cfg : config) (s : state) : state :=
  set_gen (set_gpc (if finishedCount s =? participants cfg
                    then GDouble else GBlocked) (gen s)) s.

Definition install (s : state) : state :=
  {| currentN := currentN s;
     globalA := newA (gen s);
     globalB := newB (gen s);
     finishedCount := 0;
     workers := workers s;
     gen := {| gpc := GAwait; newSize := newSize (gen s); newA := []; newB := [] |};
     mainpc := mainpc s;
     generation := S (generation s);
     aborted := aborted s;
     bufs := {| bufA := new_bufA (bufs s); bufB := new_bufB (bufs s);
                new_bufA := new_bufA (bufs s); new_bufB := new_bufB (bufs s);
                next_buf := next_buf (bufs s) |} |}.

(** The two constructors of lines 104-105 take the next two storages. *)
Definition allocate_new (s : state) : state :=
  {| currentN := currentN s; globalA := globalA s; globalB := globalB s;
     finishedCount := finishedCount s; workers := workers s; gen := gen s;
     mainpc := mainpc s; generation := generation s; aborted := aborted s;
     bufs := {| bufA := bufA (bufs s); bufB := bufB (bufs s);
                new_bufA := next_buf (bufs s);
                new_bufB := S (next_buf (bufs s));
                next_buf := S (S (next_buf (bufs s))) |} |}.

Definition matrixGeneratorThread (cfg : config) (mem : bool) (s : state)
    : option state :=
  let g := gen s in
  match gpc g with
  | GAwait => Some (await_all cfg s)
  | GBlocked => None
  | GWoken => Some (await_all cfg s)
  | GDouble =>
      Some (set_gen (set_gpc GNewSize g) (set_currentN (int_mul (currentN s) 2) s))
  | GNewSize =>
      Some (set_gen {| gpc := GAlloc; newSize := currentN s;
                       newA := newA g; newB := newB g |} s)
  | GAlloc =>
      match make_matrix mem (newSize g) 1, make_matrix mem (newSize g) 2 with
      | Some a, Some b =>
          Some (set_gen {| gpc := GInstall; newSize := newSize g;
                           newA := a; newB := b |} (allocate_new s))
      | _, _ => Some (abort s)
      end
  | GInstall =>
      (* lines 109-117, with cv_mtx held *)
      Some (notify_all (install s))
  | GFinished => None
  end.

(** *** Steps of [main] after the threads are started (lines 137-142) *)

Definition main_join (cfg : config) (s : state) : option state :=
  match mainpc s with
  | MJoin k =>
      if bool_decide (k < numMultiplicationThreads cfg)%nat then
        w ← workers s !! k;
        match wpc w with
        | WFinished => Some (set_mainpc (MJoin (S k)) s)
        | _ => None
        end
      else Some (set_mainpc MJoinGenerator s)
  | MJoinGenerator =>
      match gpc (gen s) with
      | GFinished => Some (set_mainpc MReturned s)
      | _ => None
      end
  | MReturned => None
  end.

(** *** The transition system *)

Inductive label :=
  | LWorker (i : nat) (pick : option tid)
  | LGenerator
  | LMain
  | LSpurious (t : tid)    (* a wait that returns without a notification *)
  | LBadAlloc (t : tid).   (* the allocation of thread t is refused *)

Definition quiet (l : label) : bool :=
  match l with LSpurious _ => false | _ => true end.

(** Thread [t] executes its vector constructor and the allocator refuses
    the storage. *)
Definition bad_alloc (cfg : config) (t : tid) (s : state) : option state :=
  match t with
  | Generator =>
      match gpc (gen s) with
      | GAlloc => matrixGeneratorThread cfg false s
      | _ => None
      end
  | Worker i =>
      w ← workers s !! i;
      match wpc w with
      | WAlloc => multiplicationThread cfg i None false s
      | _ => None
      end
  end.

Definition step_fn (cfg : config) (l : label) (s : state) : option state :=
  if aborted s then None else
  match l with
  | LWorker i pick => multiplicationThread cfg i pick true s
  | LGenerator => matrixGeneratorThread cfg true s
  | LMain => main_join cfg s
  | LSpurious t => unblock t s
  | LBadAlloc t => bad_alloc cfg t s
  end.

Fixpoint run (cfg : config) (sched : list label) (s : state) : option state :=
  match sched with
  | [] => Some s
  | l :: ls => s' ← step_fn cfg l s; run cfg ls s'
  end.

Definition reachable (s : state) : Prop :=
  exists sched, run code_config sched initial = Some s.

(** Reachable without any spurious wake-up. *)
Definition quietly_reachable_from (s s' : state) : Prop :=
  exists sched, forallb quiet sched = true /\ run code_config sched s = Some s'.

(** The shared data slot. *)
Definition slot (s : state) : Z * matrix * matrix :=
  (currentN s, globalA s, globalB s).

(** ** Vocabulary of the properties of [multiplyMatrices] *)

(** The bodies of the three loops of [multiplyMatrices], named. *)
Definition sum_body (A B : matrix) (i j : nat) : nat -> Z -> option Z :=
  fun k sum => a ← at2 A i k; b ← at2 B k j; Some (int_add sum (int_mul a b)).

Definition cell_body (A B : matrix) (n i : nat) : nat -> matrix -> option matrix :=
  fun j C => sum ← for_from 0 n (sum_body A B i j) 0; store C i j sum.

Definition row_body (A B : matrix) (n : nat) : nat -> matrix -> option matrix :=
  fun i C => for_from 0 n (cell_body A B n i) C.

(** The shape precondition in index form. *)
Definition shape_ge (M : matrix) (n : nat) : Prop :=
  forall i, (i < n)%nat -> exists row, M !! i = Some row /\ (n <= length row)%nat.

(** The object at address [x] has at least [n] rows of at least [n]
    columns. *)
Definition object_ge (h : list matrix) (x n : nat) : Prop :=
  exists M, h !! x = Some M /\ shape_ge M n.

(** Rows below [i] of [C] hold the wrapped product. *)
Definition rows_done (A B : matrix) (n i : nat) (C : matrix) : Prop :=
  forall i' j', (i' < i)%nat -> (j' < n)%nat ->
                at2 C i' j' = Some (wrap (dot A B i' j' n)).

(** ** Vocabulary of the protocol properties *)

(** Inside [cv.wait] of line 76 (asleep or about to re-test). *)
Definition waiting (w : worker) : bool :=
  match wpc w with WBlocked | WWoken => true | _ => false end.

(** Between the start of an iteration and the end of the multiplication:
    the program points at which a worker reads the shared slot. *)
Definition reading (w : worker) : bool :=
  match wpc w with WRead | WAlloc | WMultiply => true | _ => false end.

(** Worker [w] has incremented [finishedCount] for round [g] and the
    increment has not been reset yet. *)
Definition signalled (g : nat) (w : worker) : bool :=
  waiting w && Nat.eqb (rounds w) g.

Fixpoint count {A : Type} (p : A -> bool) (l : list A) : nat :=
  match l with
  | [] => O
  | x :: l' => (Nat.b2n (p x) + count p l')%nat
  end.

(** Between the return of the wait of line 87 and the end of the critical
    section of lines 109-117. *)
Definition generating (p : gphase) : bool :=
  match p with GDouble | GNewSize | GAlloc | GInstall => true | _ => false end.

(** Between the assignment of line 91 and the assignments of lines 110-111. *)
Definition mid_update (p : gphase) : bool :=
  match p with GNewSize | GAlloc | GInstall => true | _ => false end.

(** [currentN] after [g] executions of line 91. *)
Definition size_at (g : nat) : Z := Nat.iter g (fun n => int_mul n 2) 10.

Definition worker_inv (g : nat) (w : worker) : Prop :=
  wpc w <> WFinished /\
  (rounds w = g \/ (waiting w = true /\ S (rounds w) = g)) /\
  (wpc w = WAlloc \/ wpc w = WMultiply -> N_local w = size_at g) /\
  (wpc w = WMultiply -> C_local w = fill (size_at g) 0).

Definition data_inv (s : state) : Prop :=
  let g := generation s in
  (forall k, (k <= g)%nat -> 0 <= size_at k) /\
  match gpc (gen s) with
  | GNewSize =>
      currentN s = size_at (S g) /\
      globalA s = fill (size_at g) 1 /\ globalB s = fill (size_at g) 2
  | GAlloc =>
      currentN s = size_at (S g) /\ newSize (gen s) = size_at (S g) /\
      globalA s = fill (size_at g) 1 /\ globalB s = fill (size_at g) 2
  | GInstall =>
      currentN s = size_at (S g) /\ 0 <= size_at (S g) /\
      newSize (gen s) = size_at (S g) /\
      newA (gen s) = fill (size_at (S g)) 1 /\
      newB (gen s) = fill (size_at (S g)) 2 /\
      globalA s = fill (size_at g) 1 /\ globalB s = fill (size_at g) 2
  | _ =>
      currentN s = size_at g /\
      globalA s = fill (size_at g) 1 /\ globalB s = fill (size_at g) 2
  end.


(** The inductive invariant of the protocol. *)
Record Inv (s : state) : Prop := {
  inv_length : length (workers s) = 4%nat;
  inv_count : finishedCount s
              = Z.of_nat (count (signalled (generation s)) (workers s));
  inv_workers : Forall (worker_inv (generation s)) (workers s);
  inv_generating : generating (gpc (gen s)) = true -> finishedCount s = 4;
  inv_generator : gpc (gen s) <> GFinished;
  inv_main : mainpc s = MJoin 0;
  inv_data : data_inv s
}.

(** ** Schedules used as concrete executions *)

(** One iteration of worker [i], from line 46 to the wait of line 76;
    [pick] is the thread its [notify_one] unblocks, if it notifies. *)
Definition iteration (i : nat) (pick : option tid) : list label :=
  [LWorker i None; LWorker i None; LWorker i None; LWorker i pick].

(** The generator sleeps first; workers 0, 1, 2 signal and sleep; worker 3
    makes the count 4 and its [notify_one] unblocks worker 0, which re-tests
    [finishedCount == 0] and sleeps again. *)
Definition missed_wakeup_schedule : list label :=
  [LGenerator] ++ iteration 0 None ++ iteration 1 None ++ iteration 2 None
  ++ iteration 3 (Some (Worker 0)) ++ [LWorker 0 None].

Definition stuck_state : state :=
  Eval vm_compute in default initial (run code_config missed_wakeup_schedule initial).

(** The same round when [notify_one] unblocks the generator, up to the
    return of its wait (line 88). *)
Definition round_schedule : list label :=
  [LGenerator] ++ iteration 0 None ++ iteration 1 None ++ iteration 2 None
  ++ iteration 3 (Some Generator) ++ [LGenerator].

Definition round_done_state : state :=
  Eval vm_compute in default initial (run code_config round_schedule initial).

(** ... up to the assignment of line 91. *)
Definition doubled_schedule : list label := round_schedule ++ [LGenerator].

Definition doubled_state : state :=
  Eval vm_compute in default initial (run code_config doubled_schedule initial).

(** ... up to the end of the critical section of line 117. *)
Definition installed_schedule : list label :=
  doubled_schedule ++ [LGenerator; LGenerator; LGenerator].

Definition installed_state : state :=
  Eval vm_compute in default initial (run code_config installed_schedule initial).

(** Worker 0 has read [currentN]; later worker 1 is about to multiply. *)
Definition first_read_state : state :=
  Eval vm_compute in default initial (run code_config [LWorker 0 None] initial).

Definition first_read_worker : worker :=
  {| wpc := WAlloc; N_local := 10; C_local := []; rounds := 0 |}.

Definition later_read_state : state :=
  Eval vm_compute in
    default initial
      (run code_config (iteration 0 None ++ [LWorker 1 None; LWorker 1 None]) initial).

(** What line 55 computes on the matrices of size [n]. *)
Definition product_of (n : Z) : matrix :=
  default [] (multiplyMatrices (fill n 1) (fill n 2) (fill n 0) n).

(** A thread in the wait set, if there is one. *)
Fixpoint find_index {A : Type} (p : A -> bool) (l : list A) : option nat :=
  match l with
  | [] => None
  | x :: l' => if p x then Some O else S <$> find_index p l'
  end.

Definition find_waiter (s : state) : option tid :=
  if gblocked (gen s) then Some Generator
  else Worker <$> find_index wblocked (workers s).

(** ** Vocabulary of the further properties *)

(** [D] has the rows and row lengths of [C] and the entries of [C] outside
    the leading [n x n] block. *)
Definition frame_eq (n : nat) (C D : matrix) : Prop :=
  length D = length C /\
  (forall i, length <$> D !! i = length <$> C !! i) /\
  (forall i j, ~ (i < n /\ j < n)%nat -> at2 D i j = at2 C i j).

(** What one step of the system can do to the record of one worker: nothing,
    a wake-up, or one statement of that worker. *)
Inductive wtrans (s : state) : worker -> worker -> Prop :=
  | wt_same w : wtrans s w w
  | wt_wake w : wpc w = WBlocked -> wtrans s w (set_wpc WWoken w)
  | wt_read w :
      wpc w = WRead ->
      wtrans s w (set_wpc WAlloc (set_N_local (currentN s) w))
  | wt_alloc w C :
      wpc w = WAlloc -> make_matrix true (N_local w) 0 = Some C ->
      wtrans s w (set_wpc WMultiply (set_C_local C w))
  | wt_multiply w C :
      wpc w = WMultiply ->
      multiplyMatrices (globalA s) (globalB s) (C_local w) (N_local w) = Some C ->
      wtrans s w (set_wpc WSignal (set_C_local C w))
  | wt_signal w : wpc w = WSignal -> wtrans s w (set_wpc WBlocked w)
  | wt_retest w :
      wpc w = WWoken -> finishedCount s <> 0 -> wtrans s w (set_wpc WBlocked w)
  | wt_leave w :
      wpc w = WWoken -> finishedCount s = 0 -> wtrans s w (next_round w).

(** Past line 55 of the current iteration. *)
Definition multiplied (w : worker) : bool :=
  match wpc w with WSignal | WBlocked | WWoken => true | _ => false end.

(** A worker past line 55 holds the size and the product of its round. *)
Definition result_inv (w : worker) : Prop :=
  multiplied w = true ->
  N_local w = size_at (rounds w) /\ C_local w = product_of (N_local w).

(** A worker released by [notify_all] that has not left its wait while
    the count is no longer 0. *)
Definition stalled (i r : nat) (s : state) : Prop :=
  finishedCount s <> 0 /\
  exists w, workers s !! i = Some w /\ waiting w = true /\ rounds w = r /\
            S r = generation s.

(** After the first generation worker 1 runs a whole iteration before
    worker 0 re-tests the predicate of its wait. *)
Definition stale_schedule : list label :=
  installed_schedule ++ [LWorker 1 None] ++ iteration 1 None.

Definition stale_state : state :=
  Eval vm_compute in default initial (run code_config stale_schedule initial).

(** ... and then worker 0 re-tests. *)
Definition stale_retest_state : state :=
  Eval vm_compute in
    default initial (run code_config (stale_schedule ++ [LWorker 0 None]) initial).

(** The generator about to enter its critical section for generation 1. *)
Definition install_ready_schedule : list label :=
  doubled_schedule ++ [LGenerator; LGenerator].

Definition install_ready_state : state :=
  Eval vm_compute in default initial (run code_config install_ready_schedule initial).

(** The generator asleep on a count of 0. *)
Definition generator_asleep_state : state :=
  Eval vm_compute in default initial (run code_config [LGenerator] initial).




(** * Properties *)

Example multiply_2x2 :
  multiplyMatrices [[1;2];[3;4]] [[5;6];[7;8]] (fill 2 0) 2
  = Some [[19;22];[43;50]].
Proof. reflexivity. Qed.

(** ** Arithmetic of [int] *)

Lemma wrap_in_int x : in_int (wrap x).
Proof.
  unfold in_int, wrap, INT_MIN, INT_MAX.
  pose proof (Z.mod_pos_bound (x + 2147483648) 4294967296). lia.
Qed.

Lemma wrap_id x : in_int x -> wrap x = x.
Proof.
  unfold in_int, wrap, INT_MIN, INT_MAX. intros H.
  rewrite Z.mod_small; lia.
Qed.

Lemma wrap_fixed x : wrap x = x -> in_int x.
Proof. intros <-. apply wrap_in_int. Qed.

Lemma wrap_mod x : wrap x mod 4294967296 = x mod 4294967296.
Proof.
  unfold wrap. rewrite Zminus_mod_idemp_l. f_equal. lia.
Qed.

Lemma wrap_congr x y :
  x mod 4294967296 = y mod 4294967296 -> wrap x = wrap y.
Proof.
  intros H. unfold wrap. f_equal.
  rewrite <- (Z.add_mod_idemp_l x), H, Z.add_mod_idemp_l; lia.
Qed.

Lemma int_add_mul_wrap d a b :
  int_add (wrap d) (int_mul a b) = wrap (d + a * b).
Proof.
  unfold int_add, int_mul. apply wrap_congr.
  rewrite Z.add_mod, !wrap_mod, <- Z.add_mod; lia.
Qed.

(** ** Loops *)

Section Loops.
Context {St : Type}.
Variable body : nat -> St -> option St.

(** A loop whose body succeeds under the invariant succeeds and ends in
    the invariant. *)
Lemma for_from_total (P : nat -> St -> Prop) cnt : forall lo s,
  P lo s ->
  (forall i t, (lo <= i < lo + cnt)%nat -> P i t ->
               exists t', body i t = Some t' /\ P (S i) t') ->
  exists s', for_from lo cnt body s = Some s' /\ P (lo + cnt)%nat s'.
Proof.
  induction cnt as [|c IH]; intros lo s HP Hbody; simpl.
  - exists s. split; [reflexivity|]. now rewrite Nat.add_0_r.
  - destruct (Hbody lo s) as (t & Ht & HPt); [lia | exact HP |].
    rewrite Ht. simpl.
    destruct (IH (S lo) t HPt) as (s' & Hs' & HP').
    + intros i u Hi. apply Hbody. lia.
    + exists s'. split; [exact Hs'|]. now replace (lo + S c)%nat with (S lo + c)%nat by lia.
Qed.

(** A loop that succeeded ran its body successfully at every index. *)
Lemma for_from_ran (P : nat -> St -> Prop) (Q : nat -> Prop) cnt : forall lo s s',
  for_from lo cnt body s = Some s' ->
  P lo s ->
  (forall i t t', (lo <= i < lo + cnt)%nat -> P i t -> body i t = Some t' ->
                  P (S i) t' /\ Q i) ->
  P (lo + cnt)%nat s' /\ forall i, (lo <= i < lo + cnt)%nat -> Q i.
Proof.
  induction cnt as [|c IH]; intros lo s s' Hrun HP Hbody; simpl in Hrun.
  - injection Hrun as <-. rewrite Nat.add_0_r. split; [exact HP | lia].
  - destruct (body lo s) as [t|] eqn:Ht; simpl in Hrun; [|discriminate].
    destruct (Hbody lo s t) as [HPt HQ]; [lia | exact HP | exact Ht |].
    destruct (IH (S lo) t s' Hrun HPt) as [HP' HQ'].
    + intros i u u' Hi. apply Hbody. lia.
    + split.
      * now replace (lo + S c)%nat with (S lo + c)%nat by lia.
      * intros i Hi. destruct (decide (i = lo)) as [->|Hne]; [exact HQ|].
        apply HQ'. lia.
Qed.
End Loops.

(** ** Matrices *)

Lemma dims_ge_shape M N : dims_ge M N <-> shape_ge M (Z.to_nat N).
Proof.
  unfold dims_ge, dims_geb, shape_ge. rewrite forallb_forall. split.
  - intros H i Hi. specialize (H i). rewrite in_seq in H.
    destruct (M !! i) as [row|]; [|discriminate H; lia].
    exists row. split; [reflexivity|]. apply Nat.leb_le, H. lia.
  - intros H i Hi. apply in_seq in Hi.
    destruct (H i) as (row & -> & Hlen); [lia|]. now apply Nat.leb_le.
Qed.

Lemma shape_ge_at2 M n i j :
  shape_ge M n -> (i < n)%nat -> (j < n)%nat -> exists v, at2 M i j = Some v.
Proof.
  intros H Hi Hj. destruct (H i Hi) as (row & Hrow & Hlen).
  unfold at2. rewrite Hrow. simpl.
  destruct (lookup_lt_is_Some_2 row j) as [v Hv]; [lia|]. eauto.
Qed.

Lemma at2_shape_ge M n :
  (forall i j, (i < n)%nat -> (j < n)%nat -> is_Some (at2 M i j)) -> shape_ge M n.
Proof.
  intros H i Hi. destruct n as [|n]; [lia|].
  destruct (H i n Hi) as [v Hv]; [lia|].
  unfold at2 in Hv. destruct (M !! i) as [row|]; [|discriminate].
  exists row. split; [reflexivity|]. simpl in Hv.
  apply lookup_lt_Some in Hv. lia.
Qed.

Lemma entry_at2 M i j v : at2 M i j = Some v -> entry M i j = v.
Proof. unfold entry. now intros ->. Qed.

Lemma store_Some C i j n :
  shape_ge C n -> (i < n)%nat -> (j < n)%nat -> forall v,
  exists C', store C i j v = Some C'.
Proof.
  intros H Hi Hj v. destruct (H i Hi) as (row & Hrow & Hlen).
  unfold store. rewrite Hrow. simpl.
  rewrite bool_decide_eq_true_2 by lia. eauto.
Qed.

Lemma store_at2_eq C i j v C' :
  store C i j v = Some C' -> at2 C' i j = Some v.
Proof.
  unfold store. destruct (C !! i) as [row|] eqn:Hrow; [|discriminate]. simpl.
  case_bool_decide; [|discriminate]. intros [= <-].
  unfold at2. rewrite list_lookup_insert_eq by (eapply lookup_lt_Some; eauto).
  simpl. now apply list_lookup_insert_eq.
Qed.

Lemma store_at2_ne C i j v C' i' j' :
  store C i j v = Some C' -> (i', j') <> (i, j) -> at2 C' i' j' = at2 C i' j'.
Proof.
  unfold store. destruct (C !! i) as [row|] eqn:Hrow; [|discriminate]. simpl.
  case_bool_decide; [|discriminate]. intros [= <-] Hne.
  unfold at2. destruct (decide (i' = i)) as [->|Hi].
  - rewrite list_lookup_insert_eq by (eapply lookup_lt_Some; eauto).
    rewrite Hrow. simpl. apply list_lookup_insert_ne. congruence.
  - now rewrite list_lookup_insert_ne by congruence.
Qed.

Lemma store_shape C i j v C' n :
  store C i j v = Some C' -> shape_ge C n -> shape_ge C' n.
Proof.
  unfold store. destruct (C !! i) as [row|] eqn:Hrow; [|discriminate]. simpl.
  case_bool_decide; [|discriminate]. intros [= <-] Hsh i' Hi'.
  destruct (Hsh i' Hi') as (r & Hr & Hlen).
  destruct (decide (i' = i)) as [->|Hne].
  - exists (<[j:=v]> row). rewrite list_lookup_insert_eq by (eapply lookup_lt_Some; eauto).
    split; [reflexivity|]. rewrite length_insert. congruence.
  - exists r. now rewrite list_lookup_insert_ne by congruence.
Qed.

Lemma store_inv C i j v C' :
  store C i j v = Some C' ->
  exists row, C !! i = Some row /\ (j < length row)%nat.
Proof.
  unfold store. destruct (C !! i) as [row|]; [|discriminate]. simpl.
  case_bool_decide; [|discriminate]. eauto.
Qed.

Lemma make_matrix_fill n v : 0 <= n -> make_matrix true n v = Some (fill n v).
Proof.
  intros H. unfold make_matrix, make_vector, fill.
  destruct (n <? 0) eqn:E; [lia|]. reflexivity.
Qed.

Lemma make_matrix_Some mem n v M :
  make_matrix mem n v = Some M -> 0 <= n /\ M = fill n v /\ mem = true.
Proof.
  unfold make_matrix, make_vector, fill.
  destruct (n <? 0) eqn:E; [discriminate|]. destruct mem; [|discriminate].
  simpl. intros [= <-]. repeat split. lia.
Qed.

Lemma make_matrix_None mem n v : n < 0 -> make_matrix mem n v = None.
Proof.
  intros H. unfold make_matrix, make_vector.
  destruct (n <? 0) eqn:E; [reflexivity|lia].
Qed.

Lemma make_matrix_refused n v : make_matrix false n v = None.
Proof. unfold make_matrix, make_vector. now destruct (n <? 0). Qed.

Lemma fill_at2 n v i j :
  (i < Z.to_nat n)%nat -> (j < Z.to_nat n)%nat -> at2 (fill n v) i j = Some v.
Proof.
  intros Hi Hj. unfold at2, fill.
  rewrite lookup_replicate_2 by exact Hi. simpl.
  now apply lookup_replicate_2.
Qed.

Lemma fill_shape n v : shape_ge (fill n v) (Z.to_nat n).
Proof.
  intros i Hi. exists (replicate (Z.to_nat n) v). unfold fill.
  rewrite lookup_replicate_2 by exact Hi. split; [reflexivity|].
  now rewrite length_replicate.
Qed.

Lemma fill_square n v : 0 <= n -> square n (fill n v).
Proof.
  intros H. unfold square, fill. split; [exact H|]. split.
  - apply length_replicate.
  - apply Forall_replicate, length_replicate.
Qed.

Lemma dot_fill n i j k :
  (i < Z.to_nat n)%nat -> (j < Z.to_nat n)%nat -> (k <= Z.to_nat n)%nat ->
  dot (fill n 1) (fill n 2) i j k = 2 * Z.of_nat k.
Proof.
  intros Hi Hj. induction k as [|k IH]; intros Hk; [reflexivity|].
  cbn [dot]. rewrite IH by lia.
  unfold entry. rewrite !fill_at2 by lia. simpl. lia.
Qed.

(** ** [multiplyMatrices] *)

Section Multiply.
Variables (A B : matrix) (n : nat).

Hypothesis HA : shape_ge A n.
Hypothesis HB : shape_ge B n.

Lemma sum_loop i j :
  (i < n)%nat -> (j < n)%nat ->
  for_from 0 n (sum_body A B i j) 0 = Some (wrap (dot A B i j n)).
Proof.
  intros Hi Hj.
  destruct (for_from_total (sum_body A B i j)
              (fun k sum => sum = wrap (dot A B i j k)) n 0%nat 0)
    as (s & Hs & ->); [reflexivity | | exact Hs].
  intros k t Hk ->.
  destruct (shape_ge_at2 A n i k HA) as [a Ha]; [lia..|].
  destruct (shape_ge_at2 B n k j HB) as [b Hb]; [lia..|].
  unfold sum_body. rewrite Ha, Hb. simpl.
  eexists. split; [reflexivity|].
  rewrite int_add_mul_wrap. cbn [dot].
  now rewrite (entry_at2 _ _ _ _ Ha), (entry_at2 _ _ _ _ Hb).
Qed.

Lemma cell_loop i C :
  (i < n)%nat -> shape_ge C n -> rows_done A B n i C ->
  exists C', row_body A B n i C = Some C' /\ shape_ge C' n /\ rows_done A B n (S i) C'.
Proof.
  intros Hi HC Hdone.
  destruct (for_from_total (cell_body A B n i)
              (fun j D => shape_ge D n /\ rows_done A B n i D /\
                          forall j', (j' < j)%nat ->
                                     at2 D i j' = Some (wrap (dot A B i j' n)))
              n 0%nat C)
    as (C' & HC' & Hsh & Hprev & Hrow).
  - split; [exact HC|]. split; [exact Hdone|]. intros j' Hj'. lia.
  - intros j D Hj (HD & HDdone & HDrow).
    unfold cell_body. rewrite sum_loop by lia. simpl.
    destruct (store_Some D i j n HD Hi ltac:(lia) (wrap (dot A B i j n)))
      as [D' HD'].
    exists D'. split; [exact HD'|]. split; [eapply store_shape; eauto|]. split.
    + intros i' j' Hi' Hj'. rewrite (store_at2_ne _ _ _ _ _ _ _ HD').
      * now apply HDdone.
      * intros [= -> _]. lia.
    + intros j' Hj'. destruct (decide (j' = j)) as [->|Hne].
      * eapply store_at2_eq; eauto.
      * rewrite (store_at2_ne _ _ _ _ _ _ _ HD') by congruence.
        apply HDrow. lia.
  - exists C'. split; [exact HC'|]. split; [exact Hsh|].
    intros i' j' Hi' Hj'. destruct (decide (i' = i)) as [->|Hne].
    + apply Hrow. simpl. lia.
    + apply Hprev; lia.
Qed.

Lemma row_loop C :
  shape_ge C n ->
  exists C', for_from 0 n (row_body A B n) C = Some C' /\ shape_ge C' n /\ rows_done A B n n C'.
Proof.
  intros HC.
  destruct (for_from_total (row_body A B n)
              (fun i D => shape_ge D n /\ rows_done A B n i D) n 0%nat C)
    as (C' & HC' & Hsh & Hdone).
  - split; [exact HC|]. intros i' j' Hi'. lia.
  - intros i D Hi [HD HDdone]. apply cell_loop; [lia | exact HD | exact HDdone].
  - exists C'. auto.
Qed.
End Multiply.

Lemma multiplyMatrices_unfold A B C N :
  multiplyMatrices A B C N
  = for_from 0 (Z.to_nat N) (row_body A B (Z.to_nat N)) C.
Proof. reflexivity. Qed.

Lemma multiply_total A B C N :
  dims_ge A N -> dims_ge B N -> dims_ge C N ->
  exists C', multiplyMatrices A B C N = Some C' /\
             forall i j, (i < Z.to_nat N)%nat -> (j < Z.to_nat N)%nat ->
                         at2 C' i j = Some (wrap (dot A B i j (Z.to_nat N))).
Proof.
  rewrite !dims_ge_shape. intros HA HB HC.
  destruct (row_loop A B (Z.to_nat N) HA HB C HC) as (C' & Hrun & _ & Hdone).
  exists C'. split; [exact Hrun | exact Hdone].
Qed.

(** Every index a successful call used was in range. *)
Lemma sum_loop_ran A B n i j sum :
  for_from 0 n (sum_body A B i j) 0 = Some sum ->
  forall k, (k < n)%nat -> is_Some (at2 A i k) /\ is_Some (at2 B k j).
Proof.
  intros Hrun k Hk.
  refine (proj2 (for_from_ran (sum_body A B i j) (fun _ _ => True)
                   (fun k => is_Some (at2 A i k) /\ is_Some (at2 B k j))
                   n 0%nat 0 sum Hrun I _) k _); [|lia].
  intros k0 t t' _ _ Hs. split; [exact I|].
  unfold sum_body in Hs.
  destruct (at2 A i k0); [|discriminate]. simpl in Hs.
  destruct (at2 B k0 j); [|discriminate]. split; eauto.
Qed.

Lemma cell_loop_ran A B n i C C' :
  row_body A B n i C = Some C' ->
  forall j k, (j < n)%nat -> (k < n)%nat ->
              is_Some (at2 A i k) /\ is_Some (at2 B k j).
Proof.
  intros Hrun j k Hj Hk.
  refine (proj2 (for_from_ran (cell_body A B n i) (fun _ _ => True)
                   (fun j => forall k, (k < n)%nat ->
                                       is_Some (at2 A i k) /\ is_Some (at2 B k j))
                   n 0%nat C C' Hrun I _) j _ k Hk); [|lia].
  intros j0 E E' _ _ Hbody. split; [exact I|].
  unfold cell_body in Hbody.
  destruct (for_from 0 n (sum_body A B i j0) 0) as [sum|] eqn:Hsum; [|discriminate].
  eapply sum_loop_ran; eauto.
Qed.

Lemma row_loop_ran A B n C C' :
  for_from 0 n (row_body A B n) C = Some C' ->
  forall i j k, (i < n)%nat -> (j < n)%nat -> (k < n)%nat ->
                is_Some (at2 A i k) /\ is_Some (at2 B k j).
Proof.
  intros Hrun i j k Hi Hj Hk.
  refine (proj2 (for_from_ran (row_body A B n) (fun _ _ => True)
                   (fun i => forall j k, (j < n)%nat -> (k < n)%nat ->
                                         is_Some (at2 A i k) /\ is_Some (at2 B k j))
                   n 0%nat C C' Hrun I _) i _ j k Hj Hk); [|lia].
  intros i0 D D' _ _ Hrow. split; [exact I|].
  eapply cell_loop_ran; eauto.
Qed.

Lemma multiply_ran A B C C' N :
  multiplyMatrices A B C N = Some C' -> dims_ge A N /\ dims_ge B N.
Proof.
  rewrite multiplyMatrices_unfold, !dims_ge_shape.
  intros Hrun.
  split; apply at2_shape_ge; intros i j Hi Hj.
  - exact (proj1 (row_loop_ran _ _ _ _ _ Hrun i i j Hi Hi Hj)).
  - exact (proj2 (row_loop_ran _ _ _ _ _ Hrun i j i Hi Hj Hi)).
Qed.

(** ** [multiplyMatrices] on the objects its references name *)

(** Two loops whose bodies agree step by step agree. *)
Lemma for_from_sim {S T : Type} (R : S -> T -> Prop)
    (f : nat -> S -> option S) (g : nat -> T -> option T) cnt : forall lo s t,
  R s t ->
  (forall i s t, R s t ->
     match f i s, g i t with
     | Some s', Some t' => R s' t'
     | None, None => True
     | _, _ => False
     end) ->
  match for_from lo cnt f s, for_from lo cnt g t with
  | Some s', Some t' => R s' t'
  | None, None => True
  | _, _ => False
  end.
Proof.
  induction cnt as [|c IH]; intros lo s t HR Hstep; simpl; [exact HR|].
  specialize (Hstep lo s t HR) as Hlo.
  destruct (f lo s) as [s1|], (g lo t) as [t1|]; simpl; try easy.
  now apply IH.
Qed.

Lemma for_from_ext {S : Type} (f g : nat -> S -> option S) cnt : forall lo s,
  (forall i t, f i t = g i t) -> for_from lo cnt f s = for_from lo cnt g s.
Proof.
  induction cnt as [|c IH]; intros lo s Hfg; simpl; [reflexivity|].
  rewrite Hfg. destruct (g lo s); simpl; [now apply IH | reflexivity].
Qed.

(** When the object written is neither of the objects read, the call on
    objects is the call on values: [A] and [B] are the same at every read,
    and only the object of [C] changes. *)
Lemma multiply_at_distinct h a b c A B C N :
  h !! a = Some A -> h !! b = Some B -> h !! c = Some C ->
  c <> a -> c <> b ->
  multiplyMatrices_at a b c N h
  = (C' ← multiplyMatrices A B C N; Some (<[c := C']> h)).
Proof.
  intros Ha Hb Hc Hca Hcb.
  assert (Hlen : (c < length h)%nat) by (eapply lookup_lt_Some; eauto).
  pose (R := fun (h' : list matrix) (D : matrix) => h' = <[c := D]> h).
  assert (Hsim :
    match multiplyMatrices_at a b c N h, multiplyMatrices A B C N with
    | Some h', Some C' => R h' C'
    | None, None => True
    | _, _ => False
    end).
  { unfold multiplyMatrices_at, multiplyMatrices, for_loop.
    apply for_from_sim; [unfold R; now rewrite list_insert_id|].
    intros i h1 D1 HR1.
    apply for_from_sim; [exact HR1|].
    intros j h2 D2 HR2. unfold R in HR2. subst h2.
    rewrite (for_from_ext
               (fun k sum => x ← load (<[c := D2]> h) a i k;
                             y ← load (<[c := D2]> h) b k j;
                             Some (int_add sum (int_mul x y)))
               (fun k sum => x ← at2 A i k; y ← at2 B k j;
                             Some (int_add sum (int_mul x y)))).
    2:{ intros k t. unfold load.
        rewrite !list_lookup_insert_ne by congruence.
        rewrite Ha, Hb. reflexivity. }
    destruct (for_from 0 (Z.to_nat N) _ 0) as [sum|]; simpl; [|exact I].
    unfold store_at. rewrite list_lookup_insert_eq by exact Hlen. simpl.
    destruct (store D2 i j sum) as [D3|]; simpl; [|exact I].
    unfold R. now rewrite list_insert_insert_eq. }
  destruct (multiplyMatrices_at a b c N h), (multiplyMatrices A B C N);
    simpl; try easy.
  unfold R in Hsim. now subst.
Qed.

(** Whatever objects the references name, the same or not, the shapes of
    the objects do not change during the call, so the precondition keeps
    every index in range. *)
Lemma load_Some h a n i j :
  object_ge h a n -> (i < n)%nat -> (j < n)%nat ->
  exists v, load h a i j = Some v.
Proof.
  intros (M & HM & Hsh) Hi Hj. unfold load. rewrite HM. simpl.
  now apply (shape_ge_at2 M n).
Qed.

Lemma store_at_Some h c n i j v :
  object_ge h c n -> (i < n)%nat -> (j < n)%nat ->
  exists h', store_at h c i j v = Some h' /\
             forall x, object_ge h x n -> object_ge h' x n.
Proof.
  intros (M & HM & Hsh) Hi Hj. unfold store_at. rewrite HM. simpl.
  destruct (store_Some M i j n Hsh Hi Hj v) as [M' HM']. rewrite HM'. simpl.
  eexists. split; [reflexivity|].
  intros x (X & HX & HXsh). destruct (decide (x = c)) as [->|Hne].
  - exists M'. split; [|eapply store_shape; eauto].
    apply list_lookup_insert_eq. eapply lookup_lt_Some; eauto.
  - exists X. split; [|exact HXsh]. now rewrite list_lookup_insert_ne.
Qed.

Lemma multiply_at_total h a b c N :
  object_ge h a (Z.to_nat N) -> object_ge h b (Z.to_nat N) ->
  object_ge h c (Z.to_nat N) ->
  is_Some (multiplyMatrices_at a b c N h).
Proof.
  set (n := Z.to_nat N).
  set (ok := fun h' : list matrix =>
               object_ge h' a n /\ object_ge h' b n /\ object_ge h' c n).
  intros Ha Hb Hc. unfold multiplyMatrices_at, for_loop. fold n.
  match goal with
  | |- is_Some (for_from 0 n ?f h) =>
      destruct (for_from_total f (fun _ h' => ok h') n 0%nat h)
        as (h' & -> & _); [now split | | eauto]
  end.
  intros i h1 Hi Hok1.
  match goal with
  | |- exists t', for_from 0 n ?f h1 = Some t' /\ _ =>
      destruct (for_from_total f (fun _ h' => ok h') n 0%nat h1)
        as (h' & Hrun & Hok'); [exact Hok1 | | eauto]
  end.
  intros j h2 Hj (H2a & H2b & H2c).
  match goal with
  | |- exists t', (?m ≫= _) = Some t' /\ _ =>
      assert (Hsum : is_Some m)
  end.
  { match goal with
    | |- is_Some (for_from 0 n ?f 0) =>
        destruct (for_from_total f (fun _ _ => True) n 0%nat 0)
          as (sum & -> & _); [exact I | | eauto]
    end.
    intros k t Hk _.
    destruct (load_Some h2 a n i k H2a) as [x ->]; [lia..|].
    destruct (load_Some h2 b n k j H2b) as [y ->]; [lia..|].
    simpl. eauto. }
  destruct Hsum as [sum ->]. simpl.
  destruct (store_at_Some h2 c n i j sum H2c) as (h3 & -> & Hkeep); [lia..|].
  exists h3. split; [reflexivity|]. repeat split; now apply Hkeep.
Qed.

(** The function does not resize [C]: with a [C] that has fewer than [N]
    rows the first assignment [C[i][j] = sum] is out of range. *)
Example multiply_needs_shape_of_C :
  multiplyMatrices_at 0 1 2 1 [[[1]]; [[1]]; []] = None /\
  dims_ge [[1]] 1 /\ ~ dims_ge [] 1.
Proof. repeat split. discriminate. Qed.

(** The call of line 55 passes the two shared matrices and the worker's
    own [C], three different objects: it is the call on values. *)
Lemma multiply_call_distinct (gA gB C : matrix) N :
  multiplyMatrices_at 0 1 2 N [gA; gB; C]
  = (C' ← multiplyMatrices gA gB C N; Some [gA; gB; C']).
Proof.
  rewrite (multiply_at_distinct [gA; gB; C] 0 1 2 gA gB C N)
    by first [reflexivity | lia].
  reflexivity.
Qed.

(** When [C] names the object of [A], the rows of [A] read for a later
    column are the rows already overwritten: the result is not the product
    of the two matrices passed. *)
Example multiply_writes_through_alias :
  multiplyMatrices_at 0 1 0 2 [[[1; 2]; [3; 4]]; [[5; 6]; [7; 8]]]
  = Some [[[19; 130]; [43; 290]]; [[5; 6]; [7; 8]]] /\
  multiplyMatrices [[1; 2]; [3; 4]] [[5; 6]; [7; 8]] [[1; 2]; [3; 4]] 2
  = Some [[19; 22]; [43; 50]].
Proof. split; reflexivity. Qed.

(** ** Counting *)

Section Count.
Context {A : Type}.
Variable p : A -> bool.

Lemma count_le_length l : (count p l <= length l)%nat.
Proof. induction l as [|x l IH]; simpl; [lia|]. destruct (p x); simpl; lia. Qed.

Lemma count_insert l : forall i x y,
  l !! i = Some x ->
  (count p (<[i:=y]> l) + Nat.b2n (p x) = count p l + Nat.b2n (p y))%nat.
Proof.
  induction l as [|z l IH]; intros [|i] x y H; try discriminate; simpl in *.
  - injection H as ->. lia.
  - specialize (IH i x y H). lia.
Qed.

Lemma count_full l : count p l = length l -> Forall (fun x => p x = true) l.
Proof.
  induction l as [|x l IH]; simpl; intros H; [constructor|].
  pose proof (count_le_length l).
  destruct (p x) eqn:E; simpl in H; [|lia].
  constructor; [exact E | apply IH; lia].
Qed.

Lemma count_none l : Forall (fun x => p x = false) l -> count p l = O.
Proof. induction 1 as [|x l Hx _ IH]; simpl; [reflexivity|]. now rewrite Hx, IH. Qed.

Lemma count_pos l i x : l !! i = Some x -> p x = true -> (0 < count p l)%nat.
Proof.
  revert i. induction l as [|z l IH]; intros [|i] H Hp; try discriminate; simpl in *.
  - injection H as ->. rewrite Hp. simpl. lia.
  - specialize (IH i H Hp). lia.
Qed.

Lemma count_lt l i x : l !! i = Some x -> p x = false -> (count p l < length l)%nat.
Proof.
  revert i. induction l as [|z l IH]; intros [|i] H Hp; try discriminate; simpl in *.
  - injection H as ->. rewrite Hp. simpl. pose proof (count_le_length l). lia.
  - specialize (IH i H Hp). destruct (p z); simpl; lia.
Qed.
End Count.

(** ** The invariant *)

Lemma size_at_S g : size_at (S g) = int_mul (size_at g) 2.
Proof. reflexivity. Qed.

Lemma initial_inv : Inv initial.
Proof.
  split; try reflexivity; try discriminate.
  - apply Forall_replicate. split; [discriminate|]. split; [now left|].
    split; [intros [|]; discriminate | discriminate].
  - split; [|repeat split].
    intros k Hk. replace k with O by (simpl in Hk; lia). discriminate.
Qed.

Lemma abort_inv s : Inv s -> Inv (abort s).
Proof. intros []. split; assumption. Qed.

(** A worker outside the wait proves that fewer than four have signalled,
    hence that the generator is not generating. *)
Lemma active_worker s i w :
  Inv s -> workers s !! i = Some w -> waiting w = false ->
  rounds w = generation s /\ finishedCount s < 4 /\ 0 <= finishedCount s /\
  generating (gpc (gen s)) = false.
Proof.
  intros HI Hw Hact.
  assert (Hlt : finishedCount s < 4).
  { rewrite (inv_count s HI).
    assert (Hs : signalled (generation s) w = false)
      by (unfold signalled; now rewrite Hact).
    pose proof (count_lt (signalled (generation s)) _ _ _ Hw Hs) as H.
    rewrite (inv_length s HI) in H. lia. }
  split; [|split; [exact Hlt|split]].
  - destruct (Forall_lookup_1 _ _ _ _ (inv_workers s HI) Hw) as (_ & [H|[H _]] & _);
      [exact H | congruence].
  - rewrite (inv_count s HI). lia.
  - destruct (generating (gpc (gen s))) eqn:E; [|reflexivity].
    pose proof (inv_generating s HI E). lia.
Qed.

(** While the generator is generating, every worker is inside the wait it
    entered after signalling for the current round. *)
Lemma generating_all_signalled s :
  Inv s -> generating (gpc (gen s)) = true ->
  Forall (fun w => signalled (generation s) w = true) (workers s).
Proof.
  intros HI Hg. apply count_full.
  pose proof (inv_generating s HI Hg) as H4.
  rewrite (inv_count s HI) in H4. rewrite (inv_length s HI). lia.
Qed.

Lemma count_range s : Inv s -> 0 <= finishedCount s <= 4.
Proof.
  intros HI. rewrite (inv_count s HI).
  pose proof (count_le_length (signalled (generation s)) (workers s)) as H.
  rewrite (inv_length s HI) in H. lia.
Qed.

(** Replacing worker [i] and storing the matching count keeps the
    invariant. *)
Lemma worker_update_inv s i w w' c :
  Inv s -> workers s !! i = Some w ->
  worker_inv (generation s) w' ->
  c + Z.of_nat (Nat.b2n (signalled (generation s) w))
    = finishedCount s + Z.of_nat (Nat.b2n (signalled (generation s) w')) ->
  (generating (gpc (gen s)) = true -> c = 4) ->
  Inv (set_worker i w' (set_finishedCount c s)).
Proof.
  intros HI Hw Hw' Hc Hg. split; simpl.
  - rewrite length_insert. apply (inv_length s HI).
  - pose proof (count_insert (signalled (generation s)) _ _ _ w' Hw) as H.
    rewrite (inv_count s HI) in Hc. lia.
  - apply Forall_insert; [apply (inv_workers s HI) | exact Hw'].
  - exact Hg.
  - apply (inv_generator s HI).
  - apply (inv_main s HI).
  - apply (inv_data s HI).
Qed.

Lemma set_finishedCount_same s : set_finishedCount (finishedCount s) s = s.
Proof. now destruct s. Qed.

Lemma worker_update_inv' s i w w' :
  Inv s -> workers s !! i = Some w ->
  worker_inv (generation s) w' ->
  signalled (generation s) w = signalled (generation s) w' ->
  Inv (set_worker i w' s).
Proof.
  intros HI Hw Hw' Hsig.
  rewrite <- (set_finishedCount_same s) at 1.
  eapply worker_update_inv; eauto.
  - rewrite Hsig. lia.
  - apply (inv_generating s HI).
Qed.

(** *** Unblocking a sleeper *)

Lemma unblock_inv t s s' : Inv s -> unblock t s = Some s' -> Inv s'.
Proof.
  intros HI. destruct t as [|j]; simpl.
  - destruct (gblocked (gen s)) eqn:E; [|discriminate]. intros [= <-].
    unfold gblocked in E. destruct HI as [? ? ? ? ? ? [Hk Hd]].
    split; simpl; try assumption; try discriminate.
    split; [exact Hk|]. simpl. destruct (gpc (gen s)); try discriminate. exact Hd.
  - destruct (workers s !! j) as [w|] eqn:Hw; [|discriminate]. simpl.
    destruct (wblocked w) eqn:E; [|discriminate]. intros [= <-].
    unfold wblocked in E.
    destruct (Forall_lookup_1 _ _ _ _ (inv_workers s HI) Hw) as (H1 & H2 & H3 & H4).
    eapply worker_update_inv'; eauto.
    + unfold worker_inv, waiting in *. simpl.
      destruct (wpc w); try discriminate.
      repeat split; try discriminate; auto. intros [|]; discriminate.
    + unfold signalled, waiting. simpl. now destruct (wpc w).
Qed.

Lemma unblock_frame t s s' :
  unblock t s = Some s' ->
  currentN s' = currentN s /\ globalA s' = globalA s /\ globalB s' = globalB s /\
  finishedCount s' = finishedCount s /\ generation s' = generation s /\
  aborted s' = aborted s /\ mainpc s' = mainpc s /\
  generating (gpc (gen s')) = generating (gpc (gen s)) /\
  mid_update (gpc (gen s')) = mid_update (gpc (gen s)) /\
  forall i w, workers s !! i = Some w -> wblocked w = false ->
              workers s' !! i = Some w.
Proof.
  destruct t as [|j]; simpl.
  - destruct (gblocked (gen s)) eqn:E; [|discriminate]. intros [= <-]. simpl.
    unfold gblocked in E. destruct (gpc (gen s)); try discriminate.
    repeat split; auto.
  - destruct (workers s !! j) as [w|] eqn:Hw; [|discriminate]. simpl.
    destruct (wblocked w) eqn:E; [|discriminate]. intros [= <-]. simpl.
    repeat split; auto. intros i v Hv Hb.
    rewrite list_lookup_insert_ne; [exact Hv|]. intros ->. congruence.
Qed.

Lemma unblock_set_finishedCount t c s :
  unblock t (set_finishedCount c s) = set_finishedCount c <$> unblock t s.
Proof.
  destruct t as [|j]; simpl.
  - now destruct (gblocked (gen s)).
  - destruct (workers s !! j) as [w|]; [|reflexivity]. simpl.
    now destruct (wblocked w).
Qed.

Lemma notify_one_set_finishedCount pick c s :
  notify_one pick (set_finishedCount c s) = set_finishedCount c <$> notify_one pick s.
Proof.
  destruct pick as [t|]; simpl; [apply unblock_set_finishedCount|].
  unfold any_blocked. simpl. now destruct (_ || _).
Qed.

Lemma notify_one_inv pick s s' : Inv s -> notify_one pick s = Some s' -> Inv s'.
Proof.
  destruct pick as [t|]; simpl; [apply unblock_inv|].
  destruct (any_blocked s); [discriminate|]. now intros HI [= <-].
Qed.

Lemma notify_one_frame pick s s' :
  notify_one pick s = Some s' ->
  currentN s' = currentN s /\ globalA s' = globalA s /\ globalB s' = globalB s /\
  finishedCount s' = finishedCount s /\ generation s' = generation s /\
  aborted s' = aborted s /\ mainpc s' = mainpc s /\
  generating (gpc (gen s')) = generating (gpc (gen s)) /\
  mid_update (gpc (gen s')) = mid_update (gpc (gen s)) /\
  forall i w, workers s !! i = Some w -> wblocked w = false ->
              workers s' !! i = Some w.
Proof.
  destruct pick as [t|]; simpl; [apply unblock_frame|].
  destruct (any_blocked s); [discriminate|]. intros [= <-]. repeat split; auto.
Qed.

(** *** The slot outside the generator's update *)

Lemma slot_idle s :
  Inv s -> mid_update (gpc (gen s)) = false ->
  currentN s = size_at (generation s) /\
  globalA s = fill (size_at (generation s)) 1 /\
  globalB s = fill (size_at (generation s)) 2 /\
  0 <= size_at (generation s).
Proof.
  intros HI Hmid. destruct (inv_data s HI) as [Hk Hd].
  specialize (Hk (generation s) (Nat.le_refl _)).
  destruct (gpc (gen s)); try discriminate; destruct Hd as (? & ? & ?); auto.
Qed.

Lemma generating_mid p : generating p = false -> mid_update p = false.
Proof. now destruct p. Qed.

(** *** Steps of a worker *)

Lemma worker_step_inv i pick mem s s' :
  Inv s -> multiplicationThread code_config i pick mem s = Some s' -> Inv s'.
Proof.
  intros HI. unfold multiplicationThread.
  destruct (workers s !! i) as [w|] eqn:Hw; [|discriminate]. simpl.
  destruct (Forall_lookup_1 _ _ _ _ (inv_workers s HI) Hw) as (Hfin & Hrnd & HN & HC).
  destruct (wpc w) eqn:Hpc; try discriminate.
  - (* WRead *)
    intros [= <-].
    destruct (active_worker s i w HI Hw) as (Hr & _ & _ & Hg);
      [unfold waiting; now rewrite Hpc|].
    destruct (slot_idle s HI (generating_mid _ Hg)) as (HcN & _).
    eapply worker_update_inv'; eauto.
    + split; [discriminate|]. split; [now left|]. split; [intros _; exact HcN | discriminate].
    + unfold signalled, waiting. simpl. now rewrite Hpc.
  - (* WAlloc *)
    destruct (active_worker s i w HI Hw) as (Hr & _ & _ & Hg);
      [unfold waiting; now rewrite Hpc|].
    destruct (slot_idle s HI (generating_mid _ Hg)) as (_ & _ & _ & Hpos).
    rewrite (HN (or_introl eq_refl)).
    destruct (make_matrix mem _ 0) as [C|] eqn:HCm;
      [|intros [= <-]; now apply abort_inv].
    apply make_matrix_Some in HCm as (_ & -> & _).
    intros [= <-].
    eapply worker_update_inv'; eauto.
    + split; [discriminate|]. split; [now left|]. split; [intros _; now apply HN; left | reflexivity].
    + unfold signalled, waiting. simpl. now rewrite Hpc.
  - (* WMultiply *)
    destruct (active_worker s i w HI Hw) as (Hr & _ & _ & Hg);
      [unfold waiting; now rewrite Hpc|].
    destruct (multiplyMatrices _ _ _ _) as [C|]; intros [= <-]; [|now apply abort_inv].
    eapply worker_update_inv'; eauto.
    + split; [discriminate|]. split; [now left|]. split; [intros [|]; discriminate | discriminate].
    + unfold signalled, waiting. simpl. now rewrite Hpc.
  - (* WSignal *)
    destruct (active_worker s i w HI Hw) as (Hr & Hlt & Hge & Hg);
      [unfold waiting; now rewrite Hpc|].
    assert (Hc : int_add (finishedCount s) 1 = finishedCount s + 1).
    { apply wrap_id. unfold in_int, INT_MIN, INT_MAX. lia. }
    rewrite Hc. replace (finishedCount s + 1 =? 0) with false by lia.
    assert (Hw' : worker_inv (generation s) (set_wpc WBlocked w)).
    { split; [discriminate|]. split; [now left|]. split; [intros [|]; discriminate | discriminate]. }
    assert (Hsig : signalled (generation s) w = false)
      by (unfold signalled, waiting; now rewrite Hpc).
    assert (Hsig' : signalled (generation s) (set_wpc WBlocked w) = true)
      by (unfold signalled, waiting; simpl; now rewrite Hr, Nat.eqb_refl).
    destruct (finishedCount s + 1 =? 4).
    + rewrite notify_one_set_finishedCount.
      destruct (notify_one pick s) as [s2|] eqn:Hn; simpl; [|discriminate].
      intros [= <-].
      destruct (notify_one_frame _ _ _ Hn) as (_ & _ & _ & Hfc & Hgen & _ & _ & Hg2 & _ & Hlk).
      eapply worker_update_inv.
      * eapply notify_one_inv; eauto.
      * apply Hlk; [exact Hw|]. unfold wblocked. now rewrite Hpc.
      * now rewrite Hgen.
      * rewrite Hgen, Hfc, Hsig, Hsig'. simpl. lia.
      * rewrite Hg2, Hg. discriminate.
    + simpl. intros [= <-].
      eapply worker_update_inv; eauto.
      * rewrite Hsig, Hsig'. simpl. lia.
      * rewrite Hg. discriminate.
  - (* WWoken *)
    intros [= <-].
    destruct (finishedCount s =? 0) eqn:E.
    + assert (Hr : S (rounds w) = generation s).
      { destruct Hrnd as [Hr|[_ Hr]]; [|exact Hr].
        assert (Hs : signalled (generation s) w = true)
          by (unfold signalled, waiting; now rewrite Hpc, Hr, Nat.eqb_refl).
        pose proof (count_pos (signalled (generation s)) _ _ _ Hw Hs) as H.
        rewrite (inv_count s HI) in E. lia. }
      eapply worker_update_inv'; eauto.
      * split; [discriminate|]. split; [now left|]. split; [intros [|]; discriminate | discriminate].
      * unfold signalled, waiting. simpl. rewrite Hpc. simpl.
        apply Nat.eqb_neq. lia.
    + eapply worker_update_inv'; eauto.
      * split; [discriminate|].
        split; [destruct Hrnd as [Hr|[_ Hr]]; [now left | now right]|].
        split; [intros [|]; discriminate | discriminate].
      * unfold signalled, waiting. simpl. now rewrite Hpc.
Qed.

(** *** Steps of the generator *)

Lemma count_wake g ws :
  Forall (fun w => signalled g w = true) ws ->
  count (signalled (S g)) (map wake_worker ws) = O.
Proof.
  intros H. apply count_none, Forall_map. eapply Forall_impl; [exact H|].
  intros w Hs. unfold signalled in *. apply andb_true_iff in Hs as [_ Hr].
  apply Nat.eqb_eq in Hr. apply andb_false_iff. right.
  replace (rounds (wake_worker w)) with (rounds w)
    by (unfold wake_worker; now destruct (wblocked w)).
  apply Nat.eqb_neq. lia.
Qed.

Lemma worker_inv_wake g w :
  worker_inv g w -> signalled g w = true -> worker_inv (S g) (wake_worker w).
Proof.
  intros (Hfin & _) Hs. unfold signalled in Hs. apply andb_true_iff in Hs as [Hwait Hr].
  apply Nat.eqb_eq in Hr. unfold waiting in Hwait.
  unfold wake_worker, wblocked, worker_inv, waiting.
  destruct (wpc w) eqn:Hpc; try discriminate; simpl; rewrite ?Hpc;
    (split; [discriminate|]; split; [right; split; [reflexivity|lia]|];
     split; [intros [|]; discriminate | discriminate]).
Qed.

Lemma allocate_new_inv s : Inv s -> Inv (allocate_new s).
Proof. intros []. split; assumption. Qed.

Lemma generator_step_inv mem s s' :
  Inv s -> matrixGeneratorThread code_config mem s = Some s' -> Inv s'.
Proof.
  intros HI. unfold matrixGeneratorThread.
  pose proof (inv_data s HI) as [Hk Hd].
  destruct (gpc (gen s)) eqn:Hpc; try discriminate.
  - (* GAwait *)
    intros [= <-]. unfold await_all. destruct HI. simpl participants.
    destruct (finishedCount s =? 4) eqn:E; split; simpl; try assumption;
      try discriminate; try (intros _; lia); split; simpl; assumption.
  - (* GWoken *)
    intros [= <-]. unfold await_all. destruct HI. simpl participants.
    destruct (finishedCount s =? 4) eqn:E; split; simpl; try assumption;
      try discriminate; try (intros _; lia); split; simpl; assumption.
  - (* GDouble *)
    intros [= <-]. pose proof (inv_generating s HI) as Hg. rewrite Hpc in Hg.
    destruct HI. split; simpl; try assumption; try discriminate.
    split; [exact Hk|]. simpl. destruct Hd as (-> & ? & ?). auto.
  - (* GNewSize *)
    intros [= <-]. pose proof (inv_generating s HI) as Hg. rewrite Hpc in Hg.
    destruct HI. split; simpl; try assumption; try discriminate.
    split; [exact Hk|]. simpl. destruct Hd as (? & ? & ?). auto.
  - (* GAlloc *)
    pose proof (inv_generating s HI) as Hg. rewrite Hpc in Hg.
    destruct (make_matrix mem (newSize (gen s)) 1) as [a|] eqn:Ha;
      [|intros [= <-]; now apply abort_inv].
    destruct (make_matrix mem (newSize (gen s)) 2) as [b|] eqn:Hb;
      [|intros [= <-]; now apply abort_inv].
    intros [= <-].
    apply make_matrix_Some in Ha as (Hpos & -> & _), Hb as (_ & -> & _).
    destruct HI. split; simpl; try assumption; try discriminate.
    split; [exact Hk|]. simpl. destruct Hd as (? & HnS & ? & ?).
    rewrite HnS in *. auto 10.
  - (* GInstall *)
    intros [= <-].
    assert (Hall := generating_all_signalled s HI ltac:(now rewrite Hpc)).
    destruct Hd as (HcN & Hpos & _ & HnA & HnB & _).
    split; simpl.
    + rewrite length_map. apply (inv_length s HI).
    + now rewrite count_wake.
    + apply Forall_map.
      pose proof (inv_workers s HI) as Hws.
      induction Hws as [|w ws Hw _ IH]; [constructor|].
      apply Forall_cons in Hall as [Hs Hall].
      constructor; [now apply worker_inv_wake | now apply IH].
    + discriminate.
    + discriminate.
    + apply (inv_main s HI).
    + split; simpl.
      * intros k Hle. destruct (decide (k = S (generation s))) as [->|]; [exact Hpos|].
        apply Hk. lia.
      * auto.
Qed.

Lemma main_step_blocked s : Inv s -> main_join code_config s = None.
Proof.
  intros HI. unfold main_join. rewrite (inv_main s HI). simpl.
  pose proof (inv_length s HI) as Hlen.
  destruct (workers s) as [|w ws] eqn:Hws; [discriminate|]. simpl.
  pose proof (inv_workers s HI) as Hall. rewrite Hws in Hall.
  apply Forall_cons in Hall as [(Hfin & _) _].
  now destruct (wpc w).
Qed.

(** A refused allocation ends the process and changes nothing else. *)
Lemma bad_alloc_abort cfg t s s' : bad_alloc cfg t s = Some s' -> s' = abort s.
Proof.
  destruct t as [|i]; simpl.
  - unfold matrixGeneratorThread.
    destruct (gpc (gen s)); try discriminate.
    rewrite !make_matrix_refused. now intros [= <-].
  - destruct (workers s !! i) as [w|] eqn:Hw; [|discriminate]. simpl.
    destruct (wpc w) eqn:Hpc; try discriminate.
    unfold multiplicationThread. rewrite Hw. simpl. rewrite Hpc.
    rewrite make_matrix_refused. now intros [= <-].
Qed.

Lemma bad_alloc_inv t s s' : Inv s -> bad_alloc code_config t s = Some s' -> Inv s'.
Proof. intros HI H. rewrite (bad_alloc_abort _ _ _ _ H). now apply abort_inv. Qed.

Lemma step_inv l s s' : Inv s -> step_fn code_config l s = Some s' -> Inv s'.
Proof.
  intros HI. unfold step_fn. destruct (aborted s); [discriminate|].
  destruct l as [i pick| | |t|t].
  - now apply worker_step_inv.
  - now apply generator_step_inv.
  - now rewrite main_step_blocked.
  - now apply unblock_inv.
  - now apply bad_alloc_inv.
Qed.

Lemma run_inv sched : forall s s',
  Inv s -> run code_config sched s = Some s' -> Inv s'.
Proof.
  induction sched as [|l ls IH]; intros s s' HI; simpl.
  - now intros [= <-].
  - destruct (step_fn code_config l s) as [t|] eqn:Hstep; [|discriminate]. simpl.
    apply IH. eapply step_inv; eauto.
Qed.

Lemma reachable_inv s : reachable s -> Inv s.
Proof. intros [sched Hrun]. eapply run_inv; [apply initial_inv | exact Hrun]. Qed.

(** ** Claims *)

(** *** C9, C10: [multiplyMatrices] *)

(** C9 (counterexample).  With [A = B = [[65536]]] and [N = 1] the sum
    [A[0][0] * B[0][0]] is 2^32, which is not an [int]: the call stores 0 in
    [C[0][0]], not the standard product. *)
Lemma multiply_overflow_counterexample :
  dims_ge [[65536]] 1 /\ dims_ge [[0]] 1 /\
  multiplyMatrices [[65536]] [[65536]] [[0]] 1 = Some [[0]] /\
  dot [[65536]] [[65536]] 0 0 1 = 4294967296 /\
  ~ (exists C', multiplyMatrices [[65536]] [[65536]] [[0]] 1 = Some C' /\
                at2 C' 0 0 = Some (dot [[65536]] [[65536]] 0 0 1)).
Proof.
  repeat split; try reflexivity.
  intros (C' & HC & Hat). vm_compute in HC. injection HC as <-.
  vm_compute in Hat. discriminate.
Qed.

(** C9 (amended).  Let the references [A], [B] and [C] name objects that
    have at least [N] rows of at least [N] columns, the object of [C] being
    neither the object of [A] nor the object of [B].  Then
    [multiplyMatrices(A, B, C, N)] returns, changes no object but the one of
    [C], and leaves in every [C[i][j]], [i, j < N], the sum over [k < N] of
    [A[i][k] * B[k][j]] reduced to the 32-bit [int] range, which is the
    standard product whenever that sum lies in the [int] range; for the
    generator's fill (ones and twos) the entry is [2 * N] whenever
    [2 * N <= INT_MAX].  The shape of [C] is required because the function
    writes [C[i][j]] without resizing [C], see [multiply_needs_shape_of_C];
    without the condition on the objects the entries differ, see
    [multiply_writes_through_alias]. *)
Theorem multiply_is_wrapped_product h a b c A B C N :
  h !! a = Some A -> h !! b = Some B -> h !! c = Some C ->
  c <> a -> c <> b ->
  dims_ge A N -> dims_ge B N -> dims_ge C N ->
  exists C',
    multiplyMatrices_at a b c N h = Some (<[c := C']> h) /\
    forall i j, (i < Z.to_nat N)%nat -> (j < Z.to_nat N)%nat ->
      at2 C' i j = Some (wrap (dot A B i j (Z.to_nat N))) /\
      (in_int (dot A B i j (Z.to_nat N)) ->
       at2 C' i j = Some (dot A B i j (Z.to_nat N))) /\
      (A = fill N 1 -> B = fill N 2 -> 2 * N <= INT_MAX ->
       at2 C' i j = Some (2 * N)).
Proof.
  intros Ha Hb Hc Hca Hcb HA HB HC.
  destruct (multiply_total A B C N HA HB HC) as (C' & Hrun & Hcells).
  exists C'. split.
  { rewrite (multiply_at_distinct h a b c A B C N Ha Hb Hc Hca Hcb), Hrun.
    reflexivity. }
  intros i j Hi Hj.
  specialize (Hcells i j Hi Hj). split; [exact Hcells|]. split.
  - intros Hin. now rewrite Hcells, (wrap_id _ Hin).
  - intros -> -> Hmax. rewrite Hcells, dot_fill by lia.
    rewrite Z2Nat.id by lia. rewrite wrap_id; [reflexivity|].
    unfold in_int, INT_MIN, INT_MAX in *. lia.
Qed.

Lemma multiply_is_wrapped_product_witness :
  exists C',
    multiplyMatrices_at 0 1 2 10 [fill 10 1; fill 10 2; fill 10 0]
    = Some (<[2%nat := C']> [fill 10 1; fill 10 2; fill 10 0]) /\
    forall i j, (i < Z.to_nat 10)%nat -> (j < Z.to_nat 10)%nat ->
      at2 C' i j = Some (wrap (dot (fill 10 1) (fill 10 2) i j (Z.to_nat 10))) /\
      (in_int (dot (fill 10 1) (fill 10 2) i j (Z.to_nat 10)) ->
       at2 C' i j = Some (dot (fill 10 1) (fill 10 2) i j (Z.to_nat 10))) /\
      (fill 10 1 = fill 10 1 -> fill 10 2 = fill 10 2 -> 2 * 10 <= INT_MAX ->
       at2 C' i j = Some (2 * 10)).
Proof.
  apply (multiply_is_wrapped_product [fill 10 1; fill 10 2; fill 10 0]
           0 1 2 (fill 10 1) (fill 10 2) (fill 10 0) 10);
    first [reflexivity | lia].
Defined.

(** C10.  The function checks nothing: under its precondition on [A], [B]
    and [C] no index is out of range, whatever objects the three references
    name.  In the protocol a worker establishes
    the part on [C] itself.  Its step of line 46 copies [currentN] into
    [N_local]; its step of line 49, when the allocator grants the storage,
    makes [C_local] the [N_local] by [N_local] matrix of zeros, which has
    the shape the call needs, and otherwise ends the process; [N_local] is
    not negative and still equals [currentN] at lines 49 and 55; and at line
    55 the call, with that [C_local], stays within bounds exactly when
    [globalA] and [globalB] have at least [N_local] rows of at least
    [N_local] columns. *)
Theorem worker_establishes_precondition s i w :
  reachable s -> aborted s = false -> workers s !! i = Some w ->
  (forall h a b c A B C N,
     h !! a = Some A -> h !! b = Some B -> h !! c = Some C ->
     dims_ge A N -> dims_ge B N -> dims_ge C N ->
     is_Some (multiplyMatrices_at a b c N h)) /\
  (wpc w = WRead -> forall pick,
     step_fn code_config (LWorker i pick) s
     = Some (set_worker i (set_wpc WAlloc (set_N_local (currentN s) w)) s)) /\
  (wpc w = WAlloc ->
     0 <= N_local w /\ N_local w = currentN s /\
     dims_ge (fill (N_local w) 0) (N_local w) /\
     (forall pick,
        step_fn code_config (LWorker i pick) s
        = Some (set_worker i
                  (set_wpc WMultiply (set_C_local (fill (N_local w) 0) w)) s)) /\
     step_fn code_config (LBadAlloc (Worker i)) s = Some (abort s)) /\
  (wpc w = WMultiply ->
     N_local w = currentN s /\
     C_local w = fill (N_local w) 0 /\
     dims_ge (C_local w) (N_local w) /\
     (is_Some (multiplyMatrices (globalA s) (globalB s) (C_local w) (N_local w))
      <-> dims_ge (globalA s) (N_local w) /\ dims_ge (globalB s) (N_local w))).
Proof.
  intros Hr Hab Hw. apply reachable_inv in Hr as HI.
  assert (Htot : forall A B C N, dims_ge A N -> dims_ge B N -> dims_ge C N ->
                                 is_Some (multiplyMatrices A B C N)).
  { intros A B C N HA HB HC.
    destruct (multiply_total A B C N HA HB HC) as (C' & -> & _). eauto. }
  destruct (Forall_lookup_1 _ _ _ _ (inv_workers s HI) Hw) as (_ & _ & HN & HC).
  assert (Hidle : waiting w = false ->
                  currentN s = size_at (generation s) /\
                  0 <= size_at (generation s)).
  { intros Hact. destruct (active_worker s i w HI Hw Hact) as (_ & _ & _ & Hg).
    destruct (slot_idle s HI (generating_mid _ Hg)) as (Hn & _ & _ & Hpos).
    now split. }
  split.
  { intros h a b c A B C N Ha Hb Hc HdA HdB HdC.
    apply multiply_at_total; eexists; (split; [eassumption|]);
      now apply dims_ge_shape. }
  split; [|split].
  - intros Hpc pick. unfold step_fn, multiplicationThread.
    rewrite Hab, Hw. simpl. now rewrite Hpc.
  - intros Hpc.
    destruct Hidle as [Hn Hpos]; [unfold waiting; now rewrite Hpc|].
    specialize (HN (or_introl Hpc)).
    split; [lia|]. split; [lia|].
    split; [apply dims_ge_shape, fill_shape|]. split.
    + intros pick. unfold step_fn, multiplicationThread.
      rewrite Hab, Hw. simpl. rewrite Hpc.
      rewrite make_matrix_fill by lia. reflexivity.
    + unfold step_fn, bad_alloc, multiplicationThread.
      rewrite Hab, Hw. simpl. rewrite Hpc.
      rewrite make_matrix_refused. reflexivity.
  - intros Hpc.
    destruct Hidle as [Hn Hpos]; [unfold waiting; now rewrite Hpc|].
    specialize (HN (or_intror Hpc)). specialize (HC Hpc).
    assert (HCd : dims_ge (C_local w) (N_local w)).
    { rewrite HC, HN. apply dims_ge_shape, fill_shape. }
    split; [lia|]. split; [now rewrite HC, HN|]. split; [exact HCd|]. split.
    + intros [C' Hrun]. eapply multiply_ran; eauto.
    + intros [HA HB]. now apply Htot.
Qed.

Lemma worker_establishes_precondition_witness :
  (forall h a b c A B C N,
     h !! a = Some A -> h !! b = Some B -> h !! c = Some C ->
     dims_ge A N -> dims_ge B N -> dims_ge C N ->
     is_Some (multiplyMatrices_at a b c N h)) /\
  (wpc first_read_worker = WRead -> forall pick,
     step_fn code_config (LWorker 0 pick) first_read_state
     = Some (set_worker 0 (set_wpc WAlloc
               (set_N_local (currentN first_read_state) first_read_worker))
               first_read_state)) /\
  (wpc first_read_worker = WAlloc ->
     0 <= N_local first_read_worker /\
     N_local first_read_worker = currentN first_read_state /\
     dims_ge (fill (N_local first_read_worker) 0) (N_local first_read_worker) /\
     (forall pick,
        step_fn code_config (LWorker 0 pick) first_read_state
        = Some (set_worker 0
                  (set_wpc WMultiply
                     (set_C_local (fill (N_local first_read_worker) 0)
                        first_read_worker)) first_read_state)) /\
     step_fn code_config (LBadAlloc (Worker 0)) first_read_state
     = Some (abort first_read_state)) /\
  (wpc first_read_worker = WMultiply ->
     N_local first_read_worker = currentN first_read_state /\
     C_local first_read_worker = fill (N_local first_read_worker) 0 /\
     dims_ge (C_local first_read_worker) (N_local first_read_worker) /\
     (is_Some (multiplyMatrices (globalA first_read_state)
                 (globalB first_read_state) (C_local first_read_worker)
                 (N_local first_read_worker))
      <-> dims_ge (globalA first_read_state) (N_local first_read_worker) /\
          dims_ge (globalB first_read_state) (N_local first_read_worker))).
Proof.
  apply (worker_establishes_precondition first_read_state 0 first_read_worker).
  - exists [LWorker 0 None]. vm_compute. reflexivity.
  - reflexivity.
  - reflexivity.
Defined.

(** X4.  In the protocol every call of line 55 is within bounds. *)
Lemma worker_call_in_bounds s i w :
  reachable s -> workers s !! i = Some w -> wpc w = WMultiply ->
  is_Some (multiplyMatrices (globalA s) (globalB s) (C_local w) (N_local w)).
Proof.
  intros Hr Hw Hpc. apply reachable_inv in Hr as HI.
  destruct (Forall_lookup_1 _ _ _ _ (inv_workers s HI) Hw) as (_ & _ & HN & HC).
  destruct (active_worker s i w HI Hw) as (_ & _ & _ & Hg);
    [unfold waiting; now rewrite Hpc|].
  destruct (slot_idle s HI (generating_mid _ Hg)) as (_ & -> & -> & Hpos).
  rewrite (HN (or_intror Hpc)), (HC Hpc).
  destruct (multiply_total (fill (size_at (generation s)) 1)
              (fill (size_at (generation s)) 2)
              (fill (size_at (generation s)) 0) (size_at (generation s)))
    as (C' & -> & _); eauto; apply dims_ge_shape, fill_shape.
Qed.

(** *** Startup

    [main] builds the two matrices of lines 122-123 and starts the five
    threads; [initial] is the state it leaves when both allocations are
    granted, and no thread exists when one is refused. *)

Lemma main_spawns_initial : main true code_config = Spawned initial.
Proof. reflexivity. Qed.

Lemma main_refused : main false code_config = Aborted.
Proof. reflexivity. Qed.

(** *** Frames: what a step leaves alone *)

Lemma worker_step_slot cfg i pick mem s s' :
  multiplicationThread cfg i pick mem s = Some s' -> slot s' = slot s.
Proof.
  unfold multiplicationThread.
  destruct (workers s !! i) as [w|]; [|discriminate]. simpl.
  destruct (wpc w); try discriminate.
  - now intros [= <-].
  - destruct (make_matrix _ _ _); now intros [= <-].
  - destruct (multiplyMatrices _ _ _ _); now intros [= <-].
  - destruct (int_add (finishedCount s) 1 =? participants cfg).
    + destruct (notify_one pick _) as [s2|] eqn:Hn; simpl; [|discriminate].
      intros [= <-].
      destruct (notify_one_frame _ _ _ Hn) as (H1 & H2 & H3 & _).
      unfold slot. simpl in *. congruence.
    + simpl. now intros [= <-].
  - now intros [= <-].
Qed.

Lemma unblock_slot t s s' : unblock t s = Some s' -> slot s' = slot s.
Proof.
  intros H. destruct (unblock_frame _ _ _ H) as (H1 & H2 & H3 & _).
  unfold slot. congruence.
Qed.

Lemma generator_step_slot cfg mem s s' :
  matrixGeneratorThread cfg mem s = Some s' -> slot s' <> slot s ->
  generating (gpc (gen s)) = true.
Proof.
  unfold matrixGeneratorThread. destruct (gpc (gen s)); try discriminate; try reflexivity.
  - intros [= <-] H. now destruct H.
  - intros [= <-] H. now destruct H.
Qed.

Lemma step_slot l s s' :
  Inv s -> step_fn code_config l s = Some s' -> slot s' <> slot s ->
  l = LGenerator /\ generating (gpc (gen s)) = true.
Proof.
  intros HI. unfold step_fn. destruct (aborted s); [discriminate|].
  destruct l as [i pick| | |t|t].
  - intros H Hne. now apply worker_step_slot in H.
  - intros H Hne. split; [reflexivity|]. eapply generator_step_slot; eauto.
  - now rewrite main_step_blocked.
  - intros H Hne. now apply unblock_slot in H.
  - intros H Hne. apply bad_alloc_abort in H. subst s'. now destruct Hne.
Qed.

(** *** The executions *)

Lemma stuck_state_run :
  run code_config missed_wakeup_schedule initial = Some stuck_state.
Proof. vm_compute. reflexivity. Qed.

Lemma stuck_state_no_step l :
  quiet l = true -> step_fn code_config l stuck_state = None.
Proof.
  destruct l as [i pick| | |t|t]; try discriminate; intros _; try reflexivity.
  - do 4 (destruct i as [|i]; [reflexivity|]). reflexivity.
  - destruct t as [|i]; [reflexivity|].
    do 4 (destruct i as [|i]; [reflexivity|]). reflexivity.
Qed.

Lemma stuck_state_forever sched : forall s',
  forallb quiet sched = true -> run code_config sched stuck_state = Some s' ->
  s' = stuck_state.
Proof.
  destruct sched as [|l ls]; intros s' Hq; simpl.
  - now intros [= <-].
  - simpl in Hq. apply andb_true_iff in Hq as [Hl _].
    now rewrite (stuck_state_no_step l Hl).
Qed.

Lemma round_done_run :
  run code_config round_schedule initial = Some round_done_state.
Proof. vm_compute. reflexivity. Defined.

Lemma doubled_run :
  run code_config doubled_schedule initial = Some doubled_state.
Proof. vm_compute. reflexivity. Defined.

Lemma installed_run :
  run code_config installed_schedule initial = Some installed_state.
Proof. vm_compute. reflexivity. Defined.

Lemma first_read_run :
  run code_config [LWorker 0 None] initial = Some first_read_state.
Proof. vm_compute. reflexivity. Defined.

Lemma later_read_run :
  run code_config (iteration 0 None ++ [LWorker 1 None; LWorker 1 None]) initial
  = Some later_read_state.
Proof. vm_compute. reflexivity. Defined.

(** *** C1: the wake-up of the generator *)

(** The wait of line 87 returns only when the count is 4, and returns at
    once when the count is already 4 as the generator arrives. *)
Lemma await_returns_iff cfg s :
  gpc (gen (await_all cfg s))
  = if finishedCount s =? participants cfg then GDouble else GBlocked.
Proof. reflexivity. Qed.

(** C1 (failing execution).  The generator tests the count (0) and sleeps;
    workers 0, 1 and 2 signal and sleep on the same condition variable;
    worker 3 raises the count to 4 and calls [notify_one], which unblocks
    worker 0 instead of the generator; worker 0 finds the count non-zero and
    sleeps again.  No notification is pending, the count is 4, all five
    threads are asleep and only a spurious wake-up can end the wait. *)
Theorem notify_one_misses_generator :
  forallb quiet missed_wakeup_schedule = true /\
  run code_config missed_wakeup_schedule initial = Some stuck_state /\
  finishedCount stuck_state = participants code_config /\
  gpc (gen stuck_state) = GBlocked /\
  Forall (fun w => wpc w = WBlocked) (workers stuck_state) /\
  aborted stuck_state = false /\
  forall l, quiet l = true -> step_fn code_config l stuck_state = None.
Proof.
  split; [reflexivity|]. split; [exact stuck_state_run|].
  split; [reflexivity|]. split; [reflexivity|].
  split; [repeat constructor|]. split; [reflexivity|].
  exact stuck_state_no_step.
Qed.

(** *** C5: the range and the reset of [finishedCount] *)

Lemma finishedCount_range s :
  reachable s -> 0 <= finishedCount s <= participants code_config.
Proof. intros Hr. apply count_range, reachable_inv, Hr. Qed.

(** X6.  A step changes a count of 4 only into 0, and does so in the
    critical section that also installs the matrices and wakes every
    sleeper. *)
Lemma full_count_changes_by_reset l s s' :
  reachable s -> finishedCount s = 4 -> step_fn code_config l s = Some s' ->
  finishedCount s' <> 4 ->
  l = LGenerator /\ gpc (gen s) = GInstall /\ s' = notify_all (install s) /\
  finishedCount s' = 0.
Proof.
  intros Hr H4 Hstep Hne. apply reachable_inv in Hr as HI.
  unfold step_fn in Hstep. destruct (aborted s); [discriminate|].
  destruct l as [i pick| | |t|t].
  - exfalso. unfold multiplicationThread in Hstep.
    destruct (workers s !! i) as [w|] eqn:Hw; [|discriminate]. simpl in Hstep.
    destruct (waiting w) eqn:Hwait.
    + unfold waiting in Hwait.
      destruct (wpc w); try discriminate; injection Hstep as <-;
        apply Hne; exact H4.
    + destruct (active_worker s i w HI Hw Hwait) as (_ & Hlt & _). lia.
  - split; [reflexivity|]. unfold matrixGeneratorThread in Hstep.
    destruct (gpc (gen s)); try discriminate;
      try (injection Hstep as <-; exfalso; apply Hne; exact H4).
    + destruct (make_matrix _ _ 1); [destruct (make_matrix _ _ 2)|];
        injection Hstep as <-; exfalso; apply Hne; exact H4.
    + injection Hstep as <-. auto.
  - now rewrite main_step_blocked in Hstep.
  - exfalso. destruct (unblock_frame _ _ _ Hstep) as (_ & _ & _ & Hfc & _).
    apply Hne. congruence.
  - exfalso. apply bad_alloc_abort in Hstep. subst s'. apply Hne. exact H4.
Qed.

(** C5 (failing execution).  After the execution of C1 the count is 4 and
    stays 4 in every state the program can reach without a spurious
    wake-up: it is never reset. *)
Theorem full_count_not_transient :
  quietly_reachable_from initial stuck_state /\
  finishedCount stuck_state = participants code_config /\
  forall s', quietly_reachable_from stuck_state s' ->
             s' = stuck_state /\ finishedCount s' = participants code_config.
Proof.
  split; [exists missed_wakeup_schedule; split; [reflexivity | exact stuck_state_run]|].
  split; [reflexivity|].
  intros s' (sched & Hq & Hrun).
  rewrite (stuck_state_forever sched s' Hq Hrun). split; reflexivity.
Qed.

(** *** C3: the generator writes only when every worker has signalled *)

(** C3.  In every reachable state in which the generator is between the
    return of its wait and the end of its critical section, the count is 4
    and every worker is inside the wait it entered after signalling for the
    current round: none is reading or multiplying.  A step that changes the
    slot ([currentN], [globalA], [globalB]) is a step of the generator taken
    from such a state. *)
Theorem producer_writes_after_all_signals s :
  reachable s ->
  (generating (gpc (gen s)) = true ->
   finishedCount s = participants code_config /\
   Forall (fun w => waiting w = true /\ reading w = false /\
                    rounds w = generation s) (workers s)) /\
  (forall l s', step_fn code_config l s = Some s' -> slot s' <> slot s ->
     l = LGenerator /\ generating (gpc (gen s)) = true).
Proof.
  intros Hr. apply reachable_inv in Hr as HI. split.
  - intros Hg. split; [exact (inv_generating s HI Hg)|].
    eapply Forall_impl; [exact (generating_all_signalled s HI Hg)|].
    intros w Hs. unfold signalled in Hs. apply andb_true_iff in Hs as [Hw Hrd].
    split; [exact Hw|]. split; [|now apply Nat.eqb_eq].
    unfold waiting in Hw. unfold reading. now destruct (wpc w).
  - intros l s'. now apply step_slot.
Qed.

Lemma producer_writes_after_all_signals_witness :
  (generating (gpc (gen round_done_state)) = true ->
   finishedCount round_done_state = participants code_config /\
   Forall (fun w => waiting w = true /\ reading w = false /\
                    rounds w = generation round_done_state)
          (workers round_done_state)) /\
  (forall l s', step_fn code_config l round_done_state = Some s' ->
     slot s' <> slot round_done_state ->
     l = LGenerator /\ generating (gpc (gen round_done_state)) = true).
Proof.
  apply (producer_writes_after_all_signals round_done_state).
  exists round_schedule. vm_compute. reflexivity.
Defined.

(** *** C4: the dimensions of the matrices *)

(** C4 (counterexample).  After line 91 and before line 110 [currentN] is
    20 while [globalA] is still 10 x 10. *)
Lemma dimensions_lag_behind_size :
  reachable doubled_state /\
  gpc (gen doubled_state) = GNewSize /\
  currentN doubled_state = 20 /\
  length (globalA doubled_state) = 10%nat /\
  ~ square (currentN doubled_state) (globalA doubled_state).
Proof.
  split; [exists doubled_schedule; vm_compute; reflexivity|].
  repeat split. intros (_ & Hlen & _). vm_compute in Hlen. discriminate.
Qed.

(** C4 (amended).  In every reachable state in which the generator is not
    between its assignment to [currentN] (line 91) and its assignments to
    the matrices (lines 110-111), [globalA] and [globalB] are square of
    dimension [currentN]. *)
Theorem matrices_square_outside_update s :
  reachable s -> mid_update (gpc (gen s)) = false ->
  square (currentN s) (globalA s) /\ square (currentN s) (globalB s).
Proof.
  intros Hr Hmid. apply reachable_inv in Hr as HI.
  destruct (slot_idle s HI Hmid) as (-> & -> & -> & Hpos).
  split; now apply fill_square.
Qed.

Lemma matrices_square_outside_update_witness :
  square (currentN installed_state) (globalA installed_state) /\
  square (currentN installed_state) (globalB installed_state).
Proof.
  apply (matrices_square_outside_update installed_state).
  - exists installed_schedule. vm_compute. reflexivity.
  - reflexivity.
Defined.

(** *** C6: the growth of the size *)

Lemma size_at_pow k : (k <= 27)%nat -> size_at k = 10 * 2 ^ Z.of_nat k.
Proof.
  intros Hk.
  do 28 (destruct k as [|k]; [vm_compute; reflexivity|]). lia.
Qed.

Lemma generation_bound s : Inv s -> (generation s <= 27)%nat.
Proof.
  intros HI. destruct (inv_data s HI) as [Hk _].
  destruct (le_lt_dec (generation s) 27) as [H|H]; [exact H|].
  specialize (Hk 28%nat ltac:(lia)). vm_compute in Hk. now destruct Hk.
Qed.

(** *** Composing executions *)

Lemma run_app cfg l1 : forall l2 s,
  run cfg (l1 ++ l2) s = run cfg l1 s ≫= run cfg l2.
Proof.
  induction l1 as [|l l1 IH]; intros l2 s; simpl; [reflexivity|].
  destruct (step_fn cfg l s); simpl; [apply IH | reflexivity].
Qed.

Lemma run_step cfg l ls s s1 :
  step_fn cfg l s = Some s1 -> run cfg (l :: ls) s = run cfg ls s1.
Proof. intros H. simpl. now rewrite H. Qed.

Lemma multiply_fill n :
  0 <= n ->
  multiplyMatrices (fill n 1) (fill n 2) (fill n 0) n = Some (product_of n).
Proof.
  intros Hn. unfold product_of.
  destruct (multiply_total (fill n 1) (fill n 2) (fill n 0) n) as (C' & -> & _);
    try (apply dims_ge_shape, fill_shape). reflexivity.
Qed.

Lemma size_at_pos k : (k <= 27)%nat -> 0 <= size_at k.
Proof. intros Hk. rewrite size_at_pow by exact Hk. lia. Qed.

(** *** The storages of the shared matrices *)









(** *** C7: one slot per round *)

(** C7.  Whenever two workers (or one worker at two moments) are between
    the start of an iteration and the end of the multiplication of the same
    round, the slot is the same in both states; and the size a worker holds
    after line 46 is the [currentN] of the slot. *)
Theorem same_round_same_slot s1 s2 i j w1 w2 :
  reachable s1 -> reachable s2 ->
  workers s1 !! i = Some w1 -> workers s2 !! j = Some w2 ->
  reading w1 = true -> reading w2 = true ->
  rounds w1 = rounds w2 ->
  slot s1 = slot s2 /\
  (wpc w1 <> WRead -> N_local w1 = currentN s1) /\
  (wpc w2 <> WRead -> N_local w2 = currentN s2).
Proof.
  intros Hr1 Hr2 Hw1 Hw2 Hrd1 Hrd2 Hrounds.
  apply reachable_inv in Hr1 as HI1. apply reachable_inv in Hr2 as HI2.
  assert (Hact : forall w, reading w = true -> waiting w = false)
    by (intros w; unfold reading, waiting; now destruct (wpc w)).
  destruct (active_worker s1 i w1 HI1 Hw1 (Hact _ Hrd1)) as (Hg1 & _ & _ & Hgen1).
  destruct (active_worker s2 j w2 HI2 Hw2 (Hact _ Hrd2)) as (Hg2 & _ & _ & Hgen2).
  destruct (slot_idle s1 HI1 (generating_mid _ Hgen1)) as (HN1 & HA1 & HB1 & _).
  destruct (slot_idle s2 HI2 (generating_mid _ Hgen2)) as (HN2 & HA2 & HB2 & _).
  split; [|split].
  - unfold slot. rewrite HN1, HA1, HB1, HN2, HA2, HB2. congruence.
  - intros Hpc. rewrite HN1.
    destruct (Forall_lookup_1 _ _ _ _ (inv_workers s1 HI1) Hw1) as (_ & _ & HN & _).
    apply HN. unfold reading in Hrd1. destruct (wpc w1); try discriminate; auto.
    now destruct Hpc.
  - intros Hpc. rewrite HN2.
    destruct (Forall_lookup_1 _ _ _ _ (inv_workers s2 HI2) Hw2) as (_ & _ & HN & _).
    apply HN. unfold reading in Hrd2. destruct (wpc w2); try discriminate; auto.
    now destruct Hpc.
Qed.

Lemma same_round_same_slot_witness :
  slot first_read_state = slot later_read_state /\
  (WAlloc <> WRead -> 10 = currentN first_read_state) /\
  (WMultiply <> WRead -> 10 = currentN later_read_state).
Proof.
  apply (same_round_same_slot first_read_state later_read_state 0%nat 1%nat
           {| wpc := WAlloc; N_local := 10; C_local := []; rounds := 0 |}
           {| wpc := WMultiply; N_local := 10; C_local := fill 10 0; rounds := 0 |}).
  - exists [LWorker 0%nat None]. vm_compute. reflexivity.
  - exists (iteration 0 None ++ [LWorker 1%nat None; LWorker 1%nat None]).
    vm_compute. reflexivity.
  - reflexivity.
  - reflexivity.
  - reflexivity.
  - reflexivity.
  - reflexivity.
Defined.

(** *** The loops have no exit *)

Lemma find_index_Some {A} (p : A -> bool) l : forall j,
  find_index p l = Some j -> exists x, l !! j = Some x /\ p x = true.
Proof.
  induction l as [|x l IH]; intros j; simpl; [discriminate|].
  destruct (p x) eqn:E.
  - intros [= <-]. eauto.
  - destruct (find_index p l) as [k|]; [|discriminate]. simpl. intros [= <-].
    destruct (IH k eq_refl) as (y & Hy & Hp). eauto.
Qed.

Lemma find_index_None {A} (p : A -> bool) l :
  find_index p l = None -> existsb p l = false.
Proof.
  induction l as [|x l IH]; simpl; [reflexivity|].
  destruct (p x); [discriminate|].
  destruct (find_index p l); [discriminate|]. intros _. now apply IH.
Qed.

(** [notify_one] always returns: it unblocks a sleeper when there is one. *)
Lemma notify_one_returns s : is_Some (notify_one (find_waiter s) s).
Proof.
  unfold find_waiter. destruct (gblocked (gen s)) eqn:Eg; simpl.
  - rewrite Eg. eauto.
  - destruct (find_index wblocked (workers s)) as [j|] eqn:Ef; simpl.
    + destruct (find_index_Some _ _ _ Ef) as (w & Hw & Hp).
      rewrite Hw. simpl. rewrite Hp. eauto.
    + unfold any_blocked. rewrite Eg, (find_index_None _ _ Ef). simpl. eauto.
Qed.

(** A worker that is neither asleep nor returned can take a step. *)
Lemma worker_can_step cfg s i w :
  aborted s = false -> workers s !! i = Some w ->
  wpc w <> WBlocked -> wpc w <> WFinished ->
  exists pick s', step_fn cfg (LWorker i pick) s = Some s'.
Proof.
  intros Hab Hw Hb Hf. unfold step_fn, multiplicationThread. rewrite Hab, Hw. simpl.
  destruct (wpc w) eqn:Hpc; try congruence.
  - exists None. eauto.
  - exists None. destruct (make_matrix _ _ _); eauto.
  - exists None. destruct (multiplyMatrices _ _ _ _); eauto.
  - set (c := int_add (finishedCount s) 1).
    destruct (c =? participants cfg).
    + exists (find_waiter (set_finishedCount c s)).
      destruct (notify_one_returns (set_finishedCount c s)) as [s2 ->]. simpl. eauto.
    + exists None. simpl. eauto.
  - exists None. eauto.
Qed.

(** The generator, unless asleep or returned, can take a step. *)
Lemma generator_can_step cfg s :
  aborted s = false -> gpc (gen s) <> GBlocked -> gpc (gen s) <> GFinished ->
  exists s', step_fn cfg LGenerator s = Some s'.
Proof.
  intros Hab Hb Hf. unfold step_fn, matrixGeneratorThread. rewrite Hab.
  destruct (gpc (gen s)); try congruence; eauto.
  destruct (make_matrix _ _ 1); [destruct (make_matrix _ _ 2)|]; eauto.
Qed.

(** No thread function returns and [main] stays in its first [join]: the
    process does not exit by a return. *)
Lemma threads_never_return s :
  reachable s ->
  Forall (fun w => wpc w <> WFinished) (workers s) /\
  gpc (gen s) <> GFinished /\
  mainpc s = MJoin 0 /\ main_join code_config s = None.
Proof.
  intros Hr. apply reachable_inv in Hr as HI.
  split; [|split; [exact (inv_generator s HI)|
           split; [exact (inv_main s HI) | now apply main_step_blocked]]].
  eapply Forall_impl; [exact (inv_workers s HI)|]. now intros w (H & _).
Qed.

(** * Further properties *)

(** ** [multiplyMatrices] writes the leading block only *)

Lemma frame_eq_refl n C : frame_eq n C C.
Proof. repeat split. Qed.

Lemma store_frame C i j v C' n :
  store C i j v = Some C' -> (i < n)%nat -> (j < n)%nat -> frame_eq n C C'.
Proof.
  intros Hst Hi Hj. pose proof Hst as Hst'. unfold store in Hst.
  destruct (C !! i) as [row|] eqn:Hrow; [|discriminate]. simpl in Hst.
  case_bool_decide; [|discriminate]. injection Hst as <-.
  split; [apply length_insert|]. split.
  - intros i'. destruct (decide (i' = i)) as [->|Hne].
    + rewrite list_lookup_insert_eq by (eapply lookup_lt_Some; eauto).
      rewrite Hrow. simpl. now rewrite length_insert.
    + now rewrite list_lookup_insert_ne by congruence.
  - intros i' j' Hout. eapply store_at2_ne; [exact Hst'|].
    intros [= -> ->]. apply Hout. split; assumption.
Qed.

Lemma frame_eq_trans n C D E : frame_eq n C D -> frame_eq n D E -> frame_eq n C E.
Proof.
  intros (H1 & H2 & H3) (G1 & G2 & G3). split; [congruence|]. split.
  - intros i. now rewrite G2.
  - intros i j Hout. now rewrite G3, H3.
Qed.

Lemma cell_loop_frame A B n i C C' :
  (i < n)%nat -> row_body A B n i C = Some C' -> frame_eq n C C'.
Proof.
  intros Hi Hrun.
  refine (proj1 (for_from_ran (cell_body A B n i) (fun _ D => frame_eq n C D)
                   (fun _ => True) n 0%nat C C' Hrun (frame_eq_refl n C) _)).
  intros j D D' Hj HD Hbody. split; [|exact I].
  unfold cell_body in Hbody.
  destruct (for_from 0 n (sum_body A B i j) 0) as [sum|]; [|discriminate].
  simpl in Hbody. eapply frame_eq_trans; [exact HD|].
  eapply store_frame; eauto. lia.
Qed.

Lemma row_loop_frame A B n C C' :
  for_from 0 n (row_body A B n) C = Some C' -> frame_eq n C C'.
Proof.
  intros Hrun.
  refine (proj1 (for_from_ran (row_body A B n) (fun _ D => frame_eq n C D)
                   (fun _ => True) n 0%nat C C' Hrun (frame_eq_refl n C) _)).
  intros i D D' Hi HD Hbody. split; [|exact I].
  eapply frame_eq_trans; [exact HD|].
  exact (cell_loop_frame A B n i D D' ltac:(lia) Hbody).
Qed.

(** A call that returned found every [C[i][j]] it assigned. *)
Lemma cell_loop_target A B n i C C' :
  (i < n)%nat -> row_body A B n i C = Some C' ->
  forall j, (j < n)%nat -> is_Some (at2 C i j).
Proof.
  intros Hi Hrun j Hj.
  refine (proj2 (for_from_ran (cell_body A B n i) (fun _ D => frame_eq n C D)
                   (fun j => is_Some (at2 C i j))
                   n 0%nat C C' Hrun (frame_eq_refl n C) _) j _); [|lia].
  intros j0 D D' Hj0 HD Hbody.
  unfold cell_body in Hbody.
  destruct (for_from 0 n (sum_body A B i j0) 0) as [sum|]; [|discriminate].
  simpl in Hbody. split.
  - eapply frame_eq_trans; [exact HD|]. eapply store_frame; eauto. lia.
  - destruct (store_inv _ _ _ _ _ Hbody) as (row & Hrow & Hlen).
    destruct HD as (_ & Hrows & _). specialize (Hrows i).
    rewrite Hrow in Hrows. simpl in Hrows.
    unfold at2. destruct (C !! i) as [r|]; [|discriminate]. simpl.
    apply lookup_lt_is_Some_2. injection Hrows as Hrows. lia.
Qed.

Lemma row_loop_target A B n C C' :
  for_from 0 n (row_body A B n) C = Some C' -> shape_ge C n.
Proof.
  intros Hrun. apply at2_shape_ge. intros i j Hi Hj.
  refine (proj2 (for_from_ran (row_body A B n) (fun _ D => frame_eq n C D)
                   (fun i => forall j, (j < n)%nat -> is_Some (at2 C i j))
                   n 0%nat C C' Hrun (frame_eq_refl n C) _) i _ j Hj); [|lia].
  intros i0 D D' Hi0 HD Hbody. split.
  - eapply frame_eq_trans; [exact HD|].
    exact (cell_loop_frame A B n i0 D D' ltac:(lia) Hbody).
  - intros j0 Hj0.
    destruct (cell_loop_target A B n i0 D D' ltac:(lia) Hbody j0 Hj0) as [v Hv].
    destruct HD as (_ & Hrows & _). specialize (Hrows i0).
    unfold at2 in *. destruct (D !! i0) as [r|]; [|discriminate].
    simpl in Hv, Hrows. destruct (C !! i0) as [r0|]; [|discriminate]. simpl.
    apply lookup_lt_is_Some_2. injection Hrows as Hrows.
    apply lookup_lt_Some in Hv. lia.
Qed.

(** X1.  A call of [multiplyMatrices] that returns leaves [C] with the same
    number of rows and the same row lengths, and changes no entry outside
    the leading [N x N] block; with [N <= 0] it changes nothing. *)
Theorem multiply_writes_block_only A B C C' N :
  multiplyMatrices A B C N = Some C' ->
  length C' = length C /\
  (forall i, length <$> C' !! i = length <$> C !! i) /\
  (forall i j, ~ (i < Z.to_nat N /\ j < Z.to_nat N)%nat ->
               at2 C' i j = at2 C i j) /\
  (N <= 0 -> C' = C).
Proof.
  intros Hrun. rewrite multiplyMatrices_unfold in Hrun.
  destruct (row_loop_frame _ _ _ _ _ Hrun) as (H1 & H2 & H3).
  repeat split; auto.
  intros HN. replace (Z.to_nat N) with O in Hrun by lia.
  simpl in Hrun. congruence.
Qed.

Lemma multiply_writes_block_only_witness :
  length [[19; 22; 7]; [43; 50; 8]; [9]] = length [[0; 0; 7]; [0; 0; 8]; [9]] /\
  (forall i, length <$> [[19; 22; 7]; [43; 50; 8]; [9]] !! i
             = length <$> [[0; 0; 7]; [0; 0; 8]; [9]] !! i) /\
  (forall i j, ~ (i < Z.to_nat 2 /\ j < Z.to_nat 2)%nat ->
               at2 [[19; 22; 7]; [43; 50; 8]; [9]] i j
               = at2 [[0; 0; 7]; [0; 0; 8]; [9]] i j) /\
  (2 <= 0 -> [[19; 22; 7]; [43; 50; 8]; [9]] = [[0; 0; 7]; [0; 0; 8]; [9]]).
Proof.
  apply (multiply_writes_block_only [[1;2];[3;4]] [[5;6];[7;8]]
           [[0; 0; 7]; [0; 0; 8]; [9]] [[19; 22; 7]; [43; 50; 8]; [9]] 2).
  reflexivity.
Defined.

(** ** [multiplyMatrices] overwrites, it does not accumulate *)

Lemma matrix_ext (M M' : matrix) :
  length M = length M' ->
  (forall i, length <$> M !! i = length <$> M' !! i) ->
  (forall i j, at2 M i j = at2 M' i j) ->
  M = M'.
Proof.
  intros Hlen Hrows Hat. apply list_eq. intros i.
  specialize (Hrows i). pose proof (Hat i) as Hi. unfold at2 in Hi.
  destruct (M !! i) as [r|], (M' !! i) as [r'|]; try discriminate; [|reflexivity].
  f_equal. apply list_eq. intros j. exact (Hi j).
Qed.

(** On values: every assigned entry is recomputed from [A] and [B] alone
    ([sum] starts at 0), whatever [C] held. *)
Lemma multiply_again A B C C' N :
  multiplyMatrices A B C N = Some C' ->
  multiplyMatrices A B C' N = Some C'.
Proof.
  intros Hrun.
  destruct (multiply_ran _ _ _ _ _ Hrun) as [HA HB].
  pose proof Hrun as Hrun0. rewrite multiplyMatrices_unfold in Hrun0.
  pose proof (row_loop_target _ _ _ _ _ Hrun0) as HC.
  pose proof (row_loop_frame _ _ _ _ _ Hrun0) as (F1 & F2 & F3).
  destruct (multiply_total A B C N HA HB (proj2 (dims_ge_shape C N) HC))
    as (C1 & Hrun1 & Hcells).
  assert (C1 = C') by congruence. subst C1.
  assert (HC' : dims_ge C' N).
  { apply dims_ge_shape. intros i Hi. destruct (HC i Hi) as (row & Hrow & Hlen).
    specialize (F2 i). rewrite Hrow in F2. simpl in F2.
    destruct (C' !! i) as [r|]; [|discriminate]. injection F2 as F2.
    exists r. split; [reflexivity | lia]. }
  destruct (multiply_total A B C' N HA HB HC') as (C2 & Hrun2 & Hcells2).
  rewrite Hrun2. f_equal.
  rewrite multiplyMatrices_unfold in Hrun2.
  pose proof (row_loop_frame _ _ _ _ _ Hrun2) as (G1 & G2 & G3).
  apply matrix_ext; [exact G1 | exact G2 |].
  intros i j.
  destruct (le_lt_dec (Z.to_nat N) i) as [Hi|Hi];
    [apply G3; lia|].
  destruct (le_lt_dec (Z.to_nat N) j) as [Hj|Hj];
    [apply G3; lia|].
  now rewrite Hcells2, Hcells.
Qed.

(** X2.  When the object of [C] is neither the object of [A] nor the
    object of [B], a call that returned can be repeated on the objects it
    left and leaves them as they are: every assigned entry is recomputed
    from [A] and [B] alone ([sum] starts at 0), whatever [C] held. *)
Theorem multiply_idempotent h h' a b c A B C N :
  h !! a = Some A -> h !! b = Some B -> h !! c = Some C ->
  c <> a -> c <> b ->
  multiplyMatrices_at a b c N h = Some h' ->
  multiplyMatrices_at a b c N h' = Some h'.
Proof.
  intros Ha Hb Hc Hca Hcb Hrun.
  assert (Hlen : (c < length h)%nat) by (eapply lookup_lt_Some; eauto).
  rewrite (multiply_at_distinct h a b c A B C N Ha Hb Hc Hca Hcb) in Hrun.
  destruct (multiplyMatrices A B C N) as [C'|] eqn:HC; [|discriminate].
  simpl in Hrun. injection Hrun as <-.
  rewrite (multiply_at_distinct (<[c := C']> h) a b c A B C' N).
  - rewrite (multiply_again A B C C' N HC). simpl.
    now rewrite list_insert_insert_eq.
  - now rewrite list_lookup_insert_ne.
  - now rewrite list_lookup_insert_ne.
  - now apply list_lookup_insert_eq.
  - exact Hca.
  - exact Hcb.
Qed.

Lemma multiply_idempotent_witness :
  multiplyMatrices_at 0 1 2 2
    [[[1; 2]; [3; 4]]; [[5; 6]; [7; 8]]; [[19; 22]; [43; 50]]]
  = Some [[[1; 2]; [3; 4]]; [[5; 6]; [7; 8]]; [[19; 22]; [43; 50]]].
Proof.
  apply (multiply_idempotent
           [[[1; 2]; [3; 4]]; [[5; 6]; [7; 8]]; [[0; 0]; [0; 0]]]
           [[[1; 2]; [3; 4]]; [[5; 6]; [7; 8]]; [[19; 22]; [43; 50]]]
           0 1 2 [[1; 2]; [3; 4]] [[5; 6]; [7; 8]] [[0; 0]; [0; 0]] 2);
    first [reflexivity | lia].
Defined.

(** X3.  A call of [multiplyMatrices] uses only indices in range, and so
    returns, exactly when [A], [B] and [C] each have at least [N] rows of at
    least [N] columns. *)
Theorem multiply_defined_iff A B C N :
  is_Some (multiplyMatrices A B C N)
  <-> dims_ge A N /\ dims_ge B N /\ dims_ge C N.
Proof.
  split.
  - intros [C' Hrun]. destruct (multiply_ran _ _ _ _ _ Hrun) as [HA HB].
    split; [exact HA|]. split; [exact HB|].
    rewrite multiplyMatrices_unfold in Hrun.
    apply dims_ge_shape. eapply row_loop_target; eauto.
  - intros (HA & HB & HC).
    destruct (multiply_total A B C N HA HB HC) as (C' & -> & _). eauto.
Qed.

(** ** The counter *)

Lemma worker_call_in_bounds_witness :
  is_Some (multiplyMatrices (globalA later_read_state) (globalB later_read_state)
             (fill 10 0) 10).
Proof.
  apply (worker_call_in_bounds later_read_state 1%nat
           {| wpc := WMultiply; N_local := 10; C_local := fill 10 0;
              rounds := 0 |}).
  - exists (iteration 0 None ++ [LWorker 1%nat None; LWorker 1%nat None]).
    vm_compute. reflexivity.
  - reflexivity.
  - reflexivity.
Defined.

(** X5.  In every reachable state [finishedCount] is the number of workers
    that are inside the wait of line 76 after signalling for the current
    generation; it lies between 0 and 4. *)
Theorem counter_counts_signalled s :
  reachable s ->
  finishedCount s = Z.of_nat (count (signalled (generation s)) (workers s)) /\
  0 <= finishedCount s <= 4.
Proof.
  intros Hr. apply reachable_inv in Hr as HI.
  split; [exact (inv_count s HI) | exact (count_range s HI)].
Qed.

Lemma counter_counts_signalled_witness :
  finishedCount stale_state
  = Z.of_nat (count (signalled (generation stale_state)) (workers stale_state)) /\
  0 <= finishedCount stale_state <= 4.
Proof.
  apply (counter_counts_signalled stale_state).
  exists stale_schedule. vm_compute. reflexivity.
Defined.


Lemma full_count_changes_by_reset_witness :
  LGenerator = LGenerator /\ gpc (gen install_ready_state) = GInstall /\
  installed_state = notify_all (install install_ready_state) /\
  finishedCount installed_state = 0.
Proof.
  apply (full_count_changes_by_reset LGenerator install_ready_state installed_state).
  - exists install_ready_schedule. vm_compute. reflexivity.
  - reflexivity.
  - vm_compute. reflexivity.
  - vm_compute. discriminate.
Defined.

(** ** Steps, worker by worker *)

Lemma lookup_map_wake (ws : list worker) k :
  map wake_worker ws !! k = wake_worker <$> ws !! k.
Proof.
  revert k. induction ws as [|w ws IH]; intros [|k]; simpl; auto.
Qed.

Lemma wake_worker_trans s w : wtrans s w (wake_worker w).
Proof.
  unfold wake_worker, wblocked. destruct (wpc w) eqn:E; try apply wt_same.
  now apply wt_wake.
Qed.

Lemma unblock_workers t s s' :
  unblock t s = Some s' ->
  forall k w, workers s !! k = Some w ->
              exists w', workers s' !! k = Some w' /\
                         (w' = w \/ (wpc w = WBlocked /\ w' = set_wpc WWoken w)).
Proof.
  destruct t as [|j]; simpl.
  - destruct (gblocked (gen s)); [|discriminate]. intros [= <-] k w Hw. eauto.
  - destruct (workers s !! j) as [wj|] eqn:Hj; [|discriminate]. simpl.
    destruct (wblocked wj) eqn:E; [|discriminate]. intros [= <-] k w Hw. simpl.
    destruct (decide (k = j)) as [->|Hne].
    + rewrite list_lookup_insert_eq by (eapply lookup_lt_Some; eauto).
      assert (w = wj) by congruence. subst wj.
      eexists. split; [reflexivity|]. right. split; [|reflexivity].
      unfold wblocked in E. now destruct (wpc w).
    + rewrite list_lookup_insert_ne by congruence. eauto.
Qed.

Lemma notify_one_workers pick s s' :
  notify_one pick s = Some s' ->
  forall k w, workers s !! k = Some w ->
              exists w', workers s' !! k = Some w' /\
                         (w' = w \/ (wpc w = WBlocked /\ w' = set_wpc WWoken w)).
Proof.
  destruct pick as [t|]; simpl; [apply unblock_workers|].
  destruct (any_blocked s); [discriminate|]. intros [= <-]. eauto.
Qed.

Lemma set_worker_other j x s k w :
  workers s !! k = Some w -> k <> j ->
  workers (set_worker j x s) !! k = Some w.
Proof. intros Hw Hne. simpl. now rewrite list_lookup_insert_ne by congruence. Qed.

Lemma set_worker_self j x s w :
  workers s !! j = Some w -> workers (set_worker j x s) !! j = Some x.
Proof.
  intros Hw. simpl. apply list_lookup_insert_eq. eapply lookup_lt_Some; eauto.
Qed.

(** Replacing worker [j] by a successor of its record. *)
Lemma set_worker_trans s j wj x :
  workers s !! j = Some wj -> wtrans s wj x ->
  forall k w, workers s !! k = Some w ->
              exists w', workers (set_worker j x s) !! k = Some w' /\ wtrans s w w'.
Proof.
  intros Hj Hx k w Hw. destruct (decide (k = j)) as [->|Hne].
  - exists x. split; [eapply set_worker_self; eauto|]. congruence.
  - exists w. split; [now apply set_worker_other | apply wt_same].
Qed.

Lemma multiplicationThread_workers j pick mem s s' :
  Inv s -> multiplicationThread code_config j pick mem s = Some s' ->
  forall k w, workers s !! k = Some w ->
              exists w', workers s' !! k = Some w' /\ wtrans s w w'.
Proof.
  intros HI. unfold multiplicationThread.
  destruct (workers s !! j) as [wj|] eqn:Hj; [|discriminate]. simpl.
  destruct (wpc wj) eqn:Hpc; try discriminate.
  - intros [= <-]. eapply set_worker_trans; eauto. now apply wt_read.
  - destruct (make_matrix mem (N_local wj) 0) as [C|] eqn:HC; intros [= <-].
    + eapply set_worker_trans; eauto. apply wt_alloc; [exact Hpc|].
      destruct (make_matrix_Some _ _ _ _ HC) as (Hn & -> & _).
      now apply make_matrix_fill.
    + intros k w Hw. exists w. split; [exact Hw | apply wt_same].
  - destruct (multiplyMatrices _ _ _ _) as [C|] eqn:HC; intros [= <-].
    + eapply set_worker_trans; eauto. now apply wt_multiply.
    + intros k w Hw. exists w. split; [exact Hw | apply wt_same].
  - destruct (active_worker s j wj HI Hj) as (_ & Hlt & Hge & _);
      [unfold waiting; now rewrite Hpc|].
    assert (Hc : int_add (finishedCount s) 1 = finishedCount s + 1).
    { apply wrap_id. unfold in_int, INT_MIN, INT_MAX. lia. }
    rewrite Hc. replace (finishedCount s + 1 =? 0) with false by lia.
    destruct (finishedCount s + 1 =? 4).
    + destruct (notify_one pick _) as [s2|] eqn:Hn; simpl; [|discriminate].
      intros [= <-] k w Hw.
      destruct (notify_one_workers _ _ _ Hn k w Hw) as (w2 & Hw2 & Hrel).
      destruct (decide (k = j)) as [->|Hne].
      * assert (w = wj) by congruence. subst wj.
        exists (set_wpc WBlocked w). split; [|now apply wt_signal].
        eapply set_worker_self; eauto.
      * exists w2. split; [now apply set_worker_other|].
        destruct Hrel as [->|[Hb ->]]; [apply wt_same | now apply wt_wake].
    + simpl. intros [= <-] k w Hw.
      destruct (decide (k = j)) as [->|Hne].
      * assert (w = wj) by congruence. subst wj.
        exists (set_wpc WBlocked w). split; [|now apply wt_signal].
        eapply (set_worker_self j _ (set_finishedCount _ s)); eauto.
      * exists w. split; [|apply wt_same].
        now apply (set_worker_other j _ (set_finishedCount _ s)).
  - intros [= <-]. eapply set_worker_trans; eauto.
    destruct (finishedCount s =? 0) eqn:E.
    + apply wt_leave; [exact Hpc | lia].
    + apply wt_retest; [exact Hpc | lia].
Qed.

Lemma matrixGeneratorThread_workers mem s s' :
  matrixGeneratorThread code_config mem s = Some s' ->
  forall k w, workers s !! k = Some w ->
              exists w', workers s' !! k = Some w' /\ wtrans s w w'.
Proof.
  unfold matrixGeneratorThread.
  destruct (gpc (gen s)); try discriminate;
    try (intros [= <-] k w Hw; exists w; split; [exact Hw | apply wt_same]).
  - destruct (make_matrix _ _ 1); [destruct (make_matrix _ _ 2)|];
      intros [= <-] k w Hw; exists w; (split; [exact Hw | apply wt_same]).
  - intros [= <-] k w Hw. exists (wake_worker w). split.
    + simpl. rewrite lookup_map_wake, Hw. reflexivity.
    + apply wake_worker_trans.
Qed.

(** Every step changes every worker record by at most one transition. *)
Lemma step_workers l s s' :
  Inv s -> step_fn code_config l s = Some s' ->
  forall k w, workers s !! k = Some w ->
              exists w', workers s' !! k = Some w' /\ wtrans s w w'.
Proof.
  intros HI. unfold step_fn. destruct (aborted s); [discriminate|].
  destruct l as [j pick| | |t|t].
  - now apply multiplicationThread_workers.
  - apply matrixGeneratorThread_workers.
  - now rewrite main_step_blocked.
  - intros Hu k w Hw.
    destruct (unblock_workers _ _ _ Hu k w Hw) as (w' & Hw' & [->|[Hb ->]]);
      eexists; (split; [exact Hw'|]); [apply wt_same | now apply wt_wake].
  - intros Hb k w Hw. apply bad_alloc_abort in Hb. subst s'.
    exists w. split; [exact Hw | apply wt_same].
Qed.

Lemma step_workers_back l s s' :
  Inv s -> step_fn code_config l s = Some s' ->
  forall k w', workers s' !! k = Some w' ->
               exists w, workers s !! k = Some w /\ wtrans s w w'.
Proof.
  intros HI Hstep k w' Hw'.
  pose proof (step_inv _ _ _ HI Hstep) as HI'.
  assert (Hk : (k < length (workers s))%nat).
  { rewrite (inv_length s HI), <- (inv_length s' HI').
    eapply lookup_lt_Some; eauto. }
  destruct (lookup_lt_is_Some_2 _ _ Hk) as [w Hw].
  destruct (step_workers _ _ _ HI Hstep k w Hw) as (w2 & Hw2 & Ht).
  exists w. split; [exact Hw|]. congruence.
Qed.

(** ** Steps and the counter *)

Lemma step_counter l s s' :
  Inv s -> step_fn code_config l s = Some s' ->
  (finishedCount s' = finishedCount s /\ generation s' = generation s) \/
  (finishedCount s' = finishedCount s + 1 /\ generation s' = generation s) \/
  (gpc (gen s) = GInstall /\ finishedCount s' = 0 /\
   generation s' = S (generation s)).
Proof.
  intros HI. unfold step_fn. destruct (aborted s); [discriminate|].
  destruct l as [j pick| | |t|t].
  - unfold multiplicationThread.
    destruct (workers s !! j) as [wj|] eqn:Hj; [|discriminate]. simpl.
    destruct (wpc wj) eqn:Hpc; try discriminate.
    + intros [= <-]. now left.
    + destruct (make_matrix _ _ _); intros [= <-]; now left.
    + destruct (multiplyMatrices _ _ _ _); intros [= <-]; now left.
    + destruct (active_worker s j wj HI Hj) as (_ & Hlt & Hge & _);
        [unfold waiting; now rewrite Hpc|].
      assert (Hc : int_add (finishedCount s) 1 = finishedCount s + 1).
      { apply wrap_id. unfold in_int, INT_MIN, INT_MAX. lia. }
      rewrite Hc. right. left.
      destruct (finishedCount s + 1 =? 4).
      * destruct (notify_one pick _) as [s2|] eqn:Hn; simpl in *; [|discriminate].
        injection H as <-.
        destruct (notify_one_frame _ _ _ Hn) as (_ & _ & _ & Hfc & Hgen & _).
        simpl in *. auto.
      * simpl in H. injection H as <-. auto.
    + intros [= <-]. now left.
  - unfold matrixGeneratorThread.
    destruct (gpc (gen s)) eqn:Hpc; try discriminate;
      try (intros [= <-]; now left).
    + destruct (make_matrix _ _ 1); [destruct (make_matrix _ _ 2)|];
        intros [= <-]; now left.
    + intros [= <-]. right. right. auto.
  - now rewrite main_step_blocked.
  - intros Hu. left.
    destruct (unblock_frame _ _ _ Hu) as (_ & _ & _ & Hfc & Hgen & _). auto.
  - intros Hb. apply bad_alloc_abort in Hb. subst s'. now left.
Qed.

(** ** Workers and the generator stay in lockstep *)

(** X7.  In every reachable state a worker that is outside the wait of
    line 76 is in the iteration whose number is the number of generations
    performed, and a worker inside that wait has completed that many
    iterations or one fewer: no worker starts a round before the generator
    has installed its data, and none is ever more than one round behind. *)
Theorem workers_in_lockstep s i w :
  reachable s -> workers s !! i = Some w ->
  (waiting w = false -> rounds w = generation s) /\
  (waiting w = true ->
   rounds w = generation s \/ S (rounds w) = generation s) /\
  (rounds w <= generation s <= S (rounds w))%nat.
Proof.
  intros Hr Hw. apply reachable_inv in Hr as HI.
  destruct (Forall_lookup_1 _ _ _ _ (inv_workers s HI) Hw) as (_ & Hrnd & _).
  split; [|split].
  - intros Hact. destruct Hrnd as [H|[H _]]; [exact H | congruence].
  - intros _. destruct Hrnd as [H|[_ H]]; auto.
  - destruct Hrnd as [H|[_ H]]; lia.
Qed.

Lemma workers_in_lockstep_witness :
  (true = false -> 0%nat = generation stale_state) /\
  (true = true ->
   0%nat = generation stale_state \/ 1%nat = generation stale_state) /\
  (0 <= generation stale_state <= 1)%nat.
Proof.
  apply (workers_in_lockstep stale_state 0%nat
           {| wpc := WWoken; N_local := 10; C_local := product_of 10;
              rounds := 0 |}).
  - exists stale_schedule. vm_compute. reflexivity.
  - vm_compute. reflexivity.
Defined.

(** ** A released worker that re-tests too late *)

Lemma stalled_below_four i r s :
  Inv s -> stalled i r s -> finishedCount s < 4 /\ 0 < finishedCount s.
Proof.
  intros HI (Hne & w & Hw & Hwait & Hr & Hg).
  assert (Hs : signalled (generation s) w = false).
  { unfold signalled. rewrite Hwait. simpl. apply Nat.eqb_neq. lia. }
  pose proof (count_lt (signalled (generation s)) _ _ _ Hw Hs) as Hlt.
  rewrite (inv_length s HI) in Hlt. pose proof (count_range s HI) as Hrange.
  rewrite (inv_count s HI) in *. lia.
Qed.

Lemma stalled_step i r l s s' :
  Inv s -> stalled i r s -> step_fn code_config l s = Some s' -> stalled i r s'.
Proof.
  intros HI Hst Hstep.
  destruct (stalled_below_four i r s HI Hst) as [Hlt Hpos].
  destruct Hst as (Hne & w & Hw & Hwait & Hr & Hg).
  assert (Hcount : finishedCount s' <> 0 /\ generation s' = generation s).
  { destruct (step_counter l s s' HI Hstep)
      as [[Hc Hgen]|[[Hc Hgen]|(Hpc & _)]]; [split; [lia|exact Hgen]..|].
    assert (H4 : finishedCount s = 4)
      by (apply (inv_generating s HI); now rewrite Hpc).
    lia. }
  destruct Hcount as [Hc Hgen]. split; [exact Hc|].
  destruct (step_workers l s s' HI Hstep i w Hw) as (w' & Hw' & Ht).
  exists w'. split; [exact Hw'|]. rewrite Hgen.
  unfold waiting in *.
  inversion Ht; subst; simpl;
    try (repeat split; auto; fail);
    try (match goal with H : wpc _ = _ |- _ => rewrite H in Hwait end;
         discriminate).
  congruence.
Qed.

Lemma stalled_run i r sched : forall s s',
  Inv s -> stalled i r s -> run code_config sched s = Some s' -> stalled i r s'.
Proof.
  induction sched as [|l ls IH]; intros s s' HI Hst; simpl.
  - now intros [= <-].
  - destruct (step_fn code_config l s) as [t|] eqn:Hstep; [|discriminate]. simpl.
    apply IH; [eapply step_inv; eauto | eapply stalled_step; eauto].
Qed.

(** X8.  If in a reachable state some worker released by [notify_all]
    (inside the wait, one round behind the generator) has not yet left its
    wait while [finishedCount] is already non-zero, then in every later
    state, spurious wake-ups included, that worker is still inside the wait
    of the same round, the count stays between 1 and 3 and the generator
    never generates again. *)
Theorem stale_worker_stalls i r s :
  reachable s -> stalled i r s ->
  forall sched s', run code_config sched s = Some s' ->
    stalled i r s' /\ generation s' = generation s /\
    0 < finishedCount s' < 4 /\ generating (gpc (gen s')) = false.
Proof.
  intros Hr Hst sched s' Hrun. apply reachable_inv in Hr as HI.
  pose proof (run_inv sched s s' HI Hrun) as HI'.
  pose proof (stalled_run i r sched s s' HI Hst Hrun) as Hst'.
  destruct (stalled_below_four i r s' HI' Hst') as [Hlt Hpos].
  split; [exact Hst'|]. split; [|split; [lia|]].
  - destruct Hst as (_ & _ & _ & _ & _ & Hg).
    destruct Hst' as (_ & _ & _ & _ & _ & Hg'). congruence.
  - destruct (generating (gpc (gen s'))) eqn:E; [|reflexivity].
    pose proof (inv_generating s' HI' E). lia.
Qed.

Lemma stale_worker_stalls_witness :
  stalled 0 0 stale_retest_state /\
  generation stale_retest_state = generation stale_state /\
  0 < finishedCount stale_retest_state < 4 /\
  generating (gpc (gen stale_retest_state)) = false.
Proof.
  apply (stale_worker_stalls 0 0 stale_state) with (sched := [LWorker 0%nat None]).
  - exists stale_schedule. vm_compute. reflexivity.
  - split; [vm_compute; discriminate|].
    exists {| wpc := WWoken; N_local := 10; C_local := product_of 10; rounds := 0 |}.
    repeat split; vm_compute; reflexivity.
  - vm_compute. reflexivity.
Defined.

(** ** C8: a round without a successor *)

(** C8 (failing executions).  After the execution of C1, in which no round
    has been completed, every state the program reaches without a spurious
    wake-up has all five threads asleep in generation 0: no worker starts
    another iteration and the generator never generates.  After one
    completed round, if worker 1 signals before worker 0 has re-tested the
    predicate of its wait, then in every later state worker 0 is still
    inside the wait of round 0 and the generation is still 1: there is no
    second round. *)
Theorem rounds_stop_when_a_wakeup_is_lost :
  reachable stuck_state /\ aborted stuck_state = false /\
  generation stuck_state = 0%nat /\
  (forall s', quietly_reachable_from stuck_state s' ->
     generation s' = 0%nat /\ gpc (gen s') = GBlocked /\
     Forall (fun w => wpc w = WBlocked /\ rounds w = 0%nat) (workers s')) /\
  reachable stale_state /\ aborted stale_state = false /\
  generation stale_state = 1%nat /\
  (forall sched s', run code_config sched stale_state = Some s' ->
     generation s' = 1%nat /\ generating (gpc (gen s')) = false /\
     exists w, workers s' !! 0%nat = Some w /\ waiting w = true /\
               rounds w = 0%nat).
Proof.
  assert (Hstale : reachable stale_state)
    by (exists stale_schedule; vm_compute; reflexivity).
  split; [exists missed_wakeup_schedule; exact stuck_state_run|].
  split; [reflexivity|]. split; [reflexivity|]. split.
  { intros s' (sched & Hq & Hrun).
    rewrite (stuck_state_forever sched s' Hq Hrun).
    split; [reflexivity|]. split; [reflexivity|]. repeat constructor. }
  split; [exact Hstale|]. split; [reflexivity|]. split; [reflexivity|].
  intros sched s' Hrun. apply reachable_inv in Hstale as HI.
  assert (Hst : stalled 0 0 stale_state).
  { split; [vm_compute; discriminate|].
    exists {| wpc := WWoken; N_local := 10; C_local := product_of 10; rounds := 0 |}.
    repeat split; vm_compute; reflexivity. }
  pose proof (run_inv sched _ s' HI Hrun) as HI'.
  pose proof (stalled_run 0 0 sched _ s' HI Hst Hrun) as Hst'.
  destruct (stalled_below_four 0 0 s' HI' Hst') as [Hlt Hpos].
  destruct Hst' as (_ & w & Hw & Hwait & Hr & Hg).
  split; [now rewrite <- Hg|]. split; [|eauto].
  destruct (generating (gpc (gen s'))) eqn:E; [|reflexivity].
  pose proof (inv_generating s' HI' E). lia.
Qed.

(** ** The process ends only by an exception of a vector constructor *)

Lemma alloc_call_some s i w :
  Inv s -> workers s !! i = Some w -> wpc w = WAlloc ->
  is_Some (make_matrix true (N_local w) 0).
Proof.
  intros HI Hw Hpc.
  destruct (Forall_lookup_1 _ _ _ _ (inv_workers s HI) Hw) as (_ & _ & HN & _).
  destruct (active_worker s i w HI Hw) as (_ & _ & _ & Hg);
    [unfold waiting; now rewrite Hpc|].
  destruct (slot_idle s HI (generating_mid _ Hg)) as (_ & _ & _ & Hpos).
  rewrite (HN (or_introl Hpc)), (make_matrix_fill _ 0 Hpos). eauto.
Qed.

Lemma multiply_call_some s i w :
  Inv s -> workers s !! i = Some w -> wpc w = WMultiply ->
  multiplyMatrices (globalA s) (globalB s) (C_local w) (N_local w)
  = Some (product_of (size_at (generation s))) /\
  N_local w = size_at (generation s) /\ rounds w = generation s.
Proof.
  intros HI Hw Hpc.
  destruct (Forall_lookup_1 _ _ _ _ (inv_workers s HI) Hw) as (_ & _ & HN & HC).
  destruct (active_worker s i w HI Hw) as (Hr & _ & _ & Hg);
    [unfold waiting; now rewrite Hpc|].
  destruct (slot_idle s HI (generating_mid _ Hg)) as (_ & -> & -> & Hpos).
  rewrite (HN (or_intror Hpc)), (HC Hpc).
  split; [now apply multiply_fill | auto].
Qed.

Lemma step_abort_cause l s s' :
  Inv s -> step_fn code_config l s = Some s' -> aborted s' = true ->
  s' = abort s /\
  ((exists i w, l = LBadAlloc (Worker i) /\ workers s !! i = Some w /\
                wpc w = WAlloc) \/
   (l = LBadAlloc Generator /\ gpc (gen s) = GAlloc) \/
   (l = LGenerator /\ gpc (gen s) = GAlloc /\ newSize (gen s) < 0)).
Proof.
  intros HI. unfold step_fn. destruct (aborted s) eqn:Hab; [discriminate|].
  destruct l as [j pick| | |t|t].
  - unfold multiplicationThread.
    destruct (workers s !! j) as [wj|] eqn:Hj; [|discriminate]. simpl.
    destruct (wpc wj) eqn:Hpc; try discriminate.
    + intros [= <-]. simpl. congruence.
    + destruct (alloc_call_some s j wj HI Hj Hpc) as [C ->].
      intros [= <-]. simpl. congruence.
    + destruct (multiply_call_some s j wj HI Hj Hpc) as (-> & _).
      intros [= <-]. simpl. congruence.
    + destruct (int_add (finishedCount s) 1 =? 4).
      * destruct (notify_one pick _) as [s2|] eqn:Hn; simpl; [|discriminate].
        intros [= <-]. simpl.
        destruct (notify_one_frame _ _ _ Hn) as (_ & _ & _ & _ & _ & Ha & _).
        simpl in Ha. congruence.
      * simpl. intros [= <-]. simpl. congruence.
    + intros [= <-]. simpl. congruence.
  - unfold matrixGeneratorThread.
    destruct (gpc (gen s)) eqn:Hpc; try discriminate;
      try (intros [= <-]; simpl; congruence).
    destruct (Z_lt_le_dec (newSize (gen s)) 0) as [Hneg|Hpos].
    + rewrite !make_matrix_None by exact Hneg. intros [= <-] _.
      split; [reflexivity|]. right. right. auto.
    + rewrite !make_matrix_fill by exact Hpos.
      intros [= <-]. simpl. congruence.
  - now rewrite main_step_blocked.
  - intros Hu. destruct (unblock_frame _ _ _ Hu) as (_ & _ & _ & _ & _ & Ha & _).
    congruence.
  - intros Hb _. split; [eapply bad_alloc_abort; eauto|].
    destruct t as [|i]; simpl in Hb.
    + right. left. split; [reflexivity|].
      destruct (gpc (gen s)); try discriminate. reflexivity.
    + left. destruct (workers s !! i) as [w|] eqn:Hw; [|discriminate].
      simpl in Hb. exists i, w. split; [reflexivity|]. split; [exact Hw|].
      destruct (wpc w); try discriminate. reflexivity.
Qed.

(** X9.  A step that ends the process is an exception of a vector
    constructor and changes nothing else: the constructor of line 49 or
    those of lines 104-105 refused by the allocator, or the generator's
    constructor called with a negative size.  No call of line 55 indexes
    out of range and the constructor of line 49 is never called with a
    negative size. *)
Theorem ends_only_by_exception l s s' :
  reachable s -> step_fn code_config l s = Some s' -> aborted s' = true ->
  s' = abort s /\
  ((exists i w, l = LBadAlloc (Worker i) /\ workers s !! i = Some w /\
                wpc w = WAlloc) \/
   (l = LBadAlloc Generator /\ gpc (gen s) = GAlloc) \/
   (l = LGenerator /\ gpc (gen s) = GAlloc /\ newSize (gen s) < 0)).
Proof.
  intros Hr. apply step_abort_cause. now apply reachable_inv.
Qed.

Lemma ends_only_by_exception_witness :
  abort first_read_state = abort first_read_state /\
  ((exists i w, LBadAlloc (Worker 0) = LBadAlloc (Worker i) /\
                workers first_read_state !! i = Some w /\ wpc w = WAlloc) \/
   (LBadAlloc (Worker 0) = LBadAlloc Generator /\
    gpc (gen first_read_state) = GAlloc) \/
   (LBadAlloc (Worker 0) = LGenerator /\ gpc (gen first_read_state) = GAlloc /\
    newSize (gen first_read_state) < 0)).
Proof.
  apply (ends_only_by_exception (LBadAlloc (Worker 0)) first_read_state
           (abort first_read_state)).
  - exists [LWorker 0%nat None]. vm_compute. reflexivity.
  - vm_compute. reflexivity.
  - reflexivity.
Defined.

(** ** A whole generation *)




(** ** What a worker holds after line 55 *)

Lemma result_inv_trans s w w' :
  Inv s -> (exists i, workers s !! i = Some w) ->
  wtrans s w w' -> result_inv w -> result_inv w'.
Proof.
  intros HI [i Hw] Ht Hres. unfold result_inv, multiplied in *.
  inversion Ht; subst; simpl; auto;
    try (match goal with H : wpc _ = _ |- _ => rewrite H in Hres end; auto; fail);
    try discriminate.
  - (* multiply *)
    intros _.
    destruct (multiply_call_some s i w HI Hw H) as (Hm & HN & Hr).
    rewrite HN, Hr. split; [reflexivity | congruence].
Qed.

Lemma result_step l s s' :
  Inv s -> Forall result_inv (workers s) ->
  step_fn code_config l s = Some s' -> Forall result_inv (workers s').
Proof.
  intros HI Hres Hstep. apply Forall_lookup_2. intros k w' Hw'.
  destruct (step_workers_back l s s' HI Hstep k w' Hw') as (w & Hw & Ht).
  eapply result_inv_trans; eauto.
  exact (Forall_lookup_1 _ _ _ _ Hres Hw).
Qed.

Lemma result_run sched : forall s s',
  Inv s -> Forall result_inv (workers s) ->
  run code_config sched s = Some s' -> Forall result_inv (workers s').
Proof.
  induction sched as [|l ls IH]; intros s s' HI Hres; simpl.
  - now intros [= <-].
  - destruct (step_fn code_config l s) as [t|] eqn:Hstep; [|discriminate]. simpl.
    apply IH; [eapply step_inv; eauto | eapply result_step; eauto].
Qed.

(** X11.  In every reachable state a worker that is past the multiplication
    of its current iteration holds [N_local = 10 * 2^r], [r] being the
    number of iterations it completed before, and a result [C] whose
    [N_local x N_local] entries all equal [2 * N_local] reduced to [int],
    which is [2 * N_local] itself up to round 26. *)
Theorem worker_result s i w :
  reachable s -> workers s !! i = Some w -> multiplied w = true ->
  N_local w = 10 * 2 ^ Z.of_nat (rounds w) /\
  forall a b, (a < Z.to_nat (N_local w))%nat -> (b < Z.to_nat (N_local w))%nat ->
    at2 (C_local w) a b = Some (wrap (2 * N_local w)) /\
    ((rounds w <= 26)%nat -> at2 (C_local w) a b = Some (2 * N_local w)).
Proof.
  intros Hr Hw Hm. pose proof Hr as [sched Hrun]. apply reachable_inv in Hr as HI.
  assert (Hres : Forall result_inv (workers s)).
  { eapply result_run; [apply initial_inv | | exact Hrun].
    apply Forall_replicate. intros H. discriminate. }
  destruct (Forall_lookup_1 _ _ _ _ Hres Hw Hm) as (HN & HC).
  assert (Hb : (rounds w <= 27)%nat).
  { pose proof (generation_bound s HI).
    destruct (Forall_lookup_1 _ _ _ _ (inv_workers s HI) Hw) as (_ & [H'|[_ H']] & _);
      lia. }
  assert (HNpow : N_local w = 10 * 2 ^ Z.of_nat (rounds w))
    by (rewrite HN; now apply size_at_pow).
  split; [exact HNpow|]. intros a b Ha Hb'.
  assert (Hpos : 0 <= N_local w) by (rewrite HN; now apply size_at_pos).
  destruct (multiply_total (fill (N_local w) 1) (fill (N_local w) 2)
              (fill (N_local w) 0) (N_local w))
    as (C' & Hrun' & Hcells); try (apply dims_ge_shape, fill_shape).
  assert (C' = C_local w).
  { rewrite HC. rewrite (multiply_fill _ Hpos) in Hrun'. congruence. }
  subst C'. specialize (Hcells a b Ha Hb').
  rewrite dot_fill in Hcells by lia. rewrite Z2Nat.id in Hcells by lia.
  split; [exact Hcells|]. intros H26. rewrite Hcells. f_equal.
  apply wrap_id. rewrite HNpow.
  assert (2 ^ Z.of_nat (rounds w) <= 2 ^ 26) by (apply Z.pow_le_mono_r; lia).
  assert (0 < 2 ^ Z.of_nat (rounds w)) by (apply Z.pow_pos_nonneg; lia).
  unfold in_int, INT_MIN, INT_MAX. lia.
Qed.

Lemma worker_result_witness :
  10 = 10 * 2 ^ Z.of_nat 0 /\
  forall a b, (a < Z.to_nat 10)%nat -> (b < Z.to_nat 10)%nat ->
    at2 (product_of 10) a b = Some (wrap (2 * 10)) /\
    ((0 <= 26)%nat -> at2 (product_of 10) a b = Some (2 * 10)).
Proof.
  apply (worker_result stale_state 0%nat
           {| wpc := WWoken; N_local := 10; C_local := product_of 10;
              rounds := 0 |}).
  - exists stale_schedule. vm_compute. reflexivity.
  - vm_compute. reflexivity.
  - reflexivity.
Defined.

(** ** Spurious wake-ups *)

Lemma set_wpc_blocked_back w :
  wpc w = WBlocked -> set_wpc WBlocked (set_wpc WWoken w) = w.
Proof. destruct w as [p n c r]. simpl. now intros ->. Qed.

(** X12.  A worker asleep in the wait of line 76 that is woken without a
    notification while [finishedCount] is not 0 re-tests the predicate and
    sleeps again: the two steps leave the state exactly as it was. *)
Theorem spurious_wakeup_of_worker cfg s i w pick :
  aborted s = false -> workers s !! i = Some w -> wpc w = WBlocked ->
  finishedCount s <> 0 ->
  run cfg [LSpurious (Worker i); LWorker i pick] s = Some s.
Proof.
  intros Hab Hw Hpc Hne.
  assert (Hu : step_fn cfg (LSpurious (Worker i)) s
               = Some (set_worker i (set_wpc WWoken w) s)).
  { unfold step_fn. rewrite Hab. simpl. rewrite Hw. simpl.
    unfold wblocked. now rewrite Hpc. }
  rewrite (run_step _ _ _ _ _ Hu). simpl.
  unfold step_fn, multiplicationThread. simpl. rewrite Hab.
  rewrite list_lookup_insert_eq by (eapply lookup_lt_Some; eauto). simpl.
  replace (finishedCount s =? 0) with false by lia.
  rewrite set_wpc_blocked_back by exact Hpc.
  unfold set_worker, set_workers. cbn [workers].
  rewrite list_insert_insert_eq. rewrite (list_insert_id _ _ _ Hw).
  now destruct s.
Qed.

Lemma spurious_wakeup_of_worker_witness :
  run code_config [LSpurious (Worker 1); LWorker 1 None] stuck_state
  = Some stuck_state.
Proof.
  apply (spurious_wakeup_of_worker code_config stuck_state 1%nat
           {| wpc := WBlocked; N_local := 10; C_local := product_of 10;
              rounds := 0 |} None).
  - reflexivity.
  - vm_compute. reflexivity.
  - reflexivity.
  - vm_compute. discriminate.
Defined.

(** X13.  The generator asleep in the wait of line 87 that is woken without
    a notification while [finishedCount] is not the awaited count re-tests
    the predicate and sleeps again: the two steps leave the state exactly
    as it was. *)
Theorem spurious_wakeup_of_generator cfg s :
  aborted s = false -> gpc (gen s) = GBlocked ->
  finishedCount s <> participants cfg ->
  run cfg [LSpurious Generator; LGenerator] s = Some s.
Proof.
  intros Hab Hpc Hne.
  assert (Hu : step_fn cfg (LSpurious Generator) s
               = Some (set_gen (set_gpc GWoken (gen s)) s)).
  { unfold step_fn. rewrite Hab. simpl. unfold gblocked. now rewrite Hpc. }
  rewrite (run_step _ _ _ _ _ Hu). simpl.
  unfold step_fn, matrixGeneratorThread, await_all. simpl. rewrite Hab.
  replace (finishedCount s =? participants cfg) with false by lia.
  destruct s as [? ? ? ? ? [p ns na nb] ? ? ?]. simpl in *. now subst p.
Qed.

Lemma spurious_wakeup_of_generator_witness :
  run code_config [LSpurious Generator; LGenerator] generator_asleep_state
  = Some generator_asleep_state.
Proof.
  apply (spurious_wakeup_of_generator code_config generator_asleep_state).
  - reflexivity.
  - reflexivity.
  - vm_compute. discriminate.
Defined.
